(** * POD-and-SPOD: the numeric helper layer of the animation scripts

    A shallow embedding of the numeric code that drives the POD and
    Lagrange-multiplier animations:

    - [helpers.py]   : [gaussian_gradient], [composite_gradient], [lerp_path],
                       [smooth_step], [lerp_matrix], [numerical_gradient_2d];
    - [geometry.py]  : [create_pod_covariance_matrix],
                       [abstract_landscape_surface.surface_func],
                       [quadratic_form_level_set];
    - [base_scenes.py]        : [build_energy_meter] and its [energy_ratio];
    - [pod_educational_2d.py] : the projected energy of [update_energy];
    - [pod_educational_3d.py] : the eigenvalue reordering of
                                [scene5_3d_extension].

    Numbers.  The scripts compute on NumPy [float64]; here a number is a real
    ([R]) and arithmetic is exact, so rounding, infinities and NaN are outside
    the model.  The one arithmetic event that is kept is division by a zero
    divisor, which is an outcome of its own ([ZeroDivision]).  One statement
    about [lerp_matrix] is about rounding itself; for it the function is
    written a second time on binary64 numbers, in [Binary64].

    Arrays.  A one-dimensional array is a [list R], a two-dimensional array a
    list of rows.  An operation that NumPy refuses or broadcasts because the
    shapes of its operands differ ends in [ShapeMismatch].  Where the number
    of dimensions of an array decides what happens (an array without entries
    can have one dimension or two), the array is an [ndarray], and asking
    for an axis it does not have ends in [AxisError]. *)

From Stdlib Require Import Reals Lra Lia List Bool Arith ZArith Sorted Permutation.
From Stdlib Require String Ascii.
From Stdlib Require PrimFloat SpecFloat FloatOps.
Import ListNotations.
Import String.StringSyntax.

Local Open Scope R_scope.

(** ** Outcomes of a call *)

Inductive exn : Type :=
| ZeroDivision
| ShapeMismatch
| AxisError.

Inductive result (A : Type) : Type :=
| Ok (a : A)
| Raise (e : exn).

Arguments Ok {A} a.
Arguments Raise {A} e.

Definition bind {A B : Type} (m : result A) (k : A -> result B) : result B :=
  match m with
  | Ok a => k a
  | Raise e => Raise e
  end.

Notation "x <- m ;; k" := (bind m (fun x => k))
  (at level 61, m at next level, right associativity).

(** [a / b] of the scripts: the quotient when [b] is not zero. *)
Definition div (a b : R) : result R :=
  if Req_dec_T b 0 then Raise ZeroDivision else Ok (a / b).

(** [np.clip(x, lo, hi)] is [minimum(maximum(x, lo), hi)]. *)
Definition clip (x lo hi : R) : R := Rmin (Rmax x lo) hi.

(** ** Arrays *)

Definition vector : Type := list R.
Definition matrix : Type := list vector.

(** [A[i][j]]; outside the array the model reads 0. *)
Definition entry (A : matrix) (i j : nat) : R := nth j (nth i A []) 0.

Definition ncols (A : matrix) : nat := length (hd [] A).

(** Every row is as long as the first one. *)
Definition rectangular (A : matrix) : bool :=
  forallb (fun r => length r =? ncols A)%nat A.

Definition col (j : nat) (A : matrix) : vector := map (fun r => nth j r 0) A.

(** [A.T] *)
Definition transpose (A : matrix) : matrix :=
  map (fun j => col j A) (seq 0 (ncols A)).

(** [np.diag(l)] for a one-dimensional [l]. *)
Definition diag (l : vector) : matrix :=
  map (fun i => map (fun j => if (i =? j)%nat then nth i l 0 else 0)
                    (seq 0 (length l)))
      (seq 0 (length l)).

(** [np.sum(l)]: the entries accumulated from 0. *)
Definition np_sum (l : vector) : R := fold_left Rplus l 0.

(** [l ** 2], elementwise. *)
Definition np_square (l : vector) : vector := map (fun p => p ^ 2) l.

(** The sum of products of two vectors of one length. *)
Fixpoint dot_raw (u v : vector) : R :=
  match u, v with
  | a :: u', b :: v' => a * b + dot_raw u' v'
  | _, _ => 0
  end.

(** [u @ v], both one-dimensional. *)
Definition vecdot (u v : vector) : result R :=
  if (length u =? length v)%nat then Ok (dot_raw u v) else Raise ShapeMismatch.

(** [A @ v], [A] two-dimensional and [v] one-dimensional. *)
Definition matvec (A : matrix) (v : vector) : result vector :=
  if forallb (fun r => length r =? length v)%nat A
  then Ok (map (fun r => dot_raw r v) A)
  else Raise ShapeMismatch.

(** [v @ A], [v] one-dimensional and [A] two-dimensional. *)
Definition vecmat (v : vector) (A : matrix) : result vector :=
  if ((length v =? length A)%nat && rectangular A)%bool
  then Ok (map (dot_raw v) (transpose A))
  else Raise ShapeMismatch.

(** [A @ B], both two-dimensional. *)
Definition matmul (A B : matrix) : result matrix :=
  if (rectangular A && rectangular B && (ncols A =? length B)%nat)%bool
  then Ok (map (fun r => map (dot_raw r) (transpose B)) A)
  else Raise ShapeMismatch.

(** [v @ A @ v], evaluated from the left. *)
Definition quad_form (v : vector) (A : matrix) : result R :=
  w <- vecmat v A ;;
  vecdot w v.

(** [c * A] for a scalar [c]. *)
Definition mat_scale (c : R) (A : matrix) : matrix := map (map (Rmult c)) A.

(** [u + v] for two vectors: the lengths must agree. *)
Fixpoint vec_add (u v : vector) : result vector :=
  match u, v with
  | [], [] => Ok []
  | a :: u', b :: v' => w <- vec_add u' v' ;; Ok (a + b :: w)
  | _, _ => Raise ShapeMismatch
  end.

(** [A + B] for two matrices: the shapes must agree. *)
Fixpoint mat_add (A B : matrix) : result matrix :=
  match A, B with
  | [], [] => Ok []
  | r :: A', s :: B' =>
      t <- vec_add r s ;;
      M <- mat_add A' B' ;;
      Ok (t :: M)
  | _, _ => Raise ShapeMismatch
  end.

(** [np.linalg.norm(A, axis=1)]: the Euclidean norm of every row. *)
Definition row_norms (A : matrix) : vector :=
  map (fun r => sqrt (np_sum (np_square r))) A.

(** [a[order]]: the entries of [a] at the indices [order]. *)
Definition take (a : vector) (order : list nat) : vector :=
  map (fun i => nth i a 0) order.

(** [A[:, order]]: the columns of [A] at the indices [order]. *)
Definition take_cols (A : matrix) (order : list nat) : matrix :=
  map (fun r => take r order) A.

(** [np.linalg.norm(v)] of a one-dimensional array. *)
Definition np_norm (v : vector) : R := sqrt (np_sum (np_square v)).

(** [v / c] for a scalar [c]: every entry is divided in turn, so an array
    without entries is divided by anything. *)
Fixpoint vec_div (v : vector) (c : R) : result vector :=
  match v with
  | [] => Ok []
  | x :: v' =>
      q <- div x c ;;
      w <- vec_div v' c ;;
      Ok (q :: w)
  end.

(** [np.linspace(start, stop, num)]: [num] evenly spaced numbers, the last
    one set to [stop]. *)
Definition np_linspace (start stop : R) (num : nat) : vector :=
  match num with
  | O => []
  | S O => [start]
  | S (S k) =>
      let step := (stop - start) / INR (S k) in
      map (fun i => INR i * step + start) (seq 0 (S k)) ++ [stop]
  end.

(** An array as [np.asarray] and [np.array] give it: one-dimensional, or
    two-dimensional with its number of columns, which an array without rows
    keeps. *)
Inductive ndarray : Type :=
| Array1 (v : vector)
| Array2 (cols : nat) (rows : matrix).

(** [np.array(coords)] for a list of rows of one length: the list without
    rows gives the one-dimensional array without entries, of shape (0,). *)
Definition np_array (coords : list vector) : ndarray :=
  match coords with
  | [] => Array1 []
  | r :: _ => Array2 (length r) coords
  end.

(** [np.linalg.norm(a, axis=1)]: a one-dimensional array has no axis 1. *)
Definition nd_norm_axis1 (a : ndarray) : result vector :=
  match a with
  | Array1 _ => Raise AxisError
  | Array2 _ rows => Ok (row_norms rows)
  end.

(** [a @ v], [v] one-dimensional.  For a one-dimensional [a] the product is
    one number, kept as the array of that number. *)
Definition nd_matvec (a : ndarray) (v : vector) : result vector :=
  match a with
  | Array1 u => q <- vecdot u v ;; Ok [q]
  | Array2 cols rows =>
      if (cols =? length v)%nat then Ok (map (fun r => dot_raw r v) rows)
      else Raise ShapeMismatch
  end.

(** ** [np.argsort]

    The indices that put an array in ascending order.  NumPy leaves the
    order of equal keys to the sorting kind; this sort keeps it.  It is
    written once for any key type with a boolean order, and used on the
    reals through [Rleb]. *)

Section Argsort.
Context {K : Type}.
Variable leb : K -> K -> bool.
Variable d : K.

Fixpoint insert_index (a : list K) (i : nat) (l : list nat) : list nat :=
  match l with
  | [] => [i]
  | j :: l' =>
      if leb (nth i a d) (nth j a d) then i :: l else j :: insert_index a i l'
  end.

Definition argsort_by (a : list K) : list nat :=
  fold_right (insert_index a) [] (seq 0 (length a)).

(** The index [i] comes no later than [j] by the keys of [a]. *)
Definition key_le (a : list K) (i j : nat) : Prop :=
  leb (nth i a d) (nth j a d) = true.
End Argsort.

Definition Rleb (x y : R) : bool := if Rle_dec x y then true else false.

Definition argsort (a : vector) : list nat := argsort_by Rleb 0 a.

(** ** Points and paths *)

(** A point or vector [np.array([a, b, c])] of three numbers. *)
Definition vec3 : Type := (R * R * R)%type.

Definition vec3_scale (c : R) (p : vec3) : vec3 :=
  let '(x, y, z) := p in (c * x, c * y, c * z).

Definition vec3_add (p q : vec3) : vec3 :=
  let '(x, y, z) := p in
  let '(x', y', z') := q in (x + x', y + y', z + z').

Definition vec3_sub (p q : vec3) : vec3 :=
  let '(x, y, z) := p in
  let '(x', y', z') := q in (x - x', y - y', z - z').

(** [np.linalg.norm(p)] of a point. *)
Definition vec3_norm (p : vec3) : R :=
  let '(x, y, z) := p in sqrt (np_sum (np_square [x; y; z])).

(** [p / c] for a scalar [c]. *)
Definition vec3_div (p : vec3) (c : R) : result vec3 :=
  let '(x, y, z) := p in
  a <- div x c ;;
  b <- div y c ;;
  d <- div z c ;;
  Ok (a, b, d).

(** ** [helpers.py] *)

Module Helpers.

(** [gaussian_gradient(x, y, center, sigma_x, sigma_y, amplitude)] *)
Definition gaussian_gradient (x y : R) (center : R * R)
    (sigma_x sigma_y amplitude : R) : result vec3 :=
  let '(cx, cy) := center in
  let dx := x - cx in
  let dy := y - cy in
  qx <- div (dx ^ 2) (2 * sigma_x ^ 2) ;;
  qy <- div (dy ^ 2) (2 * sigma_y ^ 2) ;;
  let exp_term := exp (- (qx + qy)) in
  let f_val := amplitude * exp_term in
  grad_x <- div (- f_val * dx) (sigma_x ^ 2) ;;
  grad_y <- div (- f_val * dy) (sigma_y ^ 2) ;;
  Ok (grad_x, grad_y, 0.0).

(** [composite_gradient(x, y)] *)
Definition composite_gradient (x y : R) : result vec3 :=
  grad1 <- gaussian_gradient x y (0, 0) 3.0 2.0 0.8 ;;
  let sin_term := 0.4 * sin (0.8 * x) * cos (0.6 * y) in
  let grad_sin_x := 0.4 * 0.8 * cos (0.8 * x) * cos (0.6 * y) in
  let grad_sin_y := - 0.4 * 0.6 * sin (0.8 * x) * sin (0.6 * y) in
  Ok (vec3_add grad1 (grad_sin_x, grad_sin_y, 0.0)).

(** [normalize_vector(v, epsilon)] *)
Definition normalize_vector (v : vector) (epsilon : R) : result vector :=
  let norm := np_norm v in
  if Rlt_dec norm epsilon then Ok v else vec_div v norm.

(** [path_normal_2d(tangent)], [tangent] a point [[tx, ty, tz]]. *)
Definition path_normal_2d (tangent : vec3) : vec3 :=
  let '(tx, ty, _) := tangent in
  (- ty, tx, 0.0).

(** [lerp_path(path_a, path_b, alpha)]: the closure [interpolated_path]. *)
Definition lerp_path (path_a path_b : R -> vec3) (alpha : R) : R -> vec3 :=
  fun t =>
    let point_a := path_a t in
    let point_b := path_b t in
    vec3_add (vec3_scale (1 - alpha) point_a) (vec3_scale alpha point_b).

(** [smooth_step(t, edge0, edge1)] *)
Definition smooth_step (t edge0 edge1 : R) : result R :=
  q <- div (t - edge0) (edge1 - edge0) ;;
  let t := clip q 0.0 1.0 in
  Ok (t * t * (3.0 - 2.0 * t)).

(** [lerp_matrix(mat_a, mat_b, alpha)] *)
Definition lerp_matrix (mat_a mat_b : matrix) (alpha : R) : result matrix :=
  mat_add (mat_scale (1 - alpha) mat_a) (mat_scale alpha mat_b).

(** [numerical_gradient_2d(func, x, y, h)] *)
Definition numerical_gradient_2d (func : R -> R -> R) (x y h : R) : result vec3 :=
  grad_x <- div (func (x + h) y - func (x - h) y) (2 * h) ;;
  grad_y <- div (func x (y + h) - func x (y - h)) (2 * h) ;;
  Ok (grad_x, grad_y, 0.0).

End Helpers.

(** ** [helpers.py] on binary64 numbers

    [lerp_matrix] as NumPy runs it on arrays of [float64]: every product and
    every sum is rounded to the nearest binary64 number, ties to even.  The
    numbers are the primitive floats of the kernel. *)

Module Binary64.

Definition f64 : Type := PrimFloat.float.
Definition fmatrix : Type := list (list f64).

(** The binary64 number [m 2^e]. *)
Definition of_bits (m : positive) (e : Z) : f64 :=
  FloatOps.SF2Prim (SpecFloat.S754_finite false m e).

(** The rational a finite binary64 number stands for. *)
Definition value (x : f64) : option QArith_base.Q :=
  match FloatOps.Prim2SF x with
  | SpecFloat.S754_zero _ => Some (QArith_base.Qmake 0 1)
  | SpecFloat.S754_finite s m e =>
      let n := if s then Zneg m else Zpos m in
      match e with
      | Z0 => Some (QArith_base.Qmake n 1)
      | Zpos p => Some (QArith_base.Qmake (n * Z.pow_pos 2 p) 1)
      | Zneg p => Some (QArith_base.Qmake n (Pos.pow 2 p))
      end
  | _ => None
  end.

Fixpoint values (v : list f64) : option (list QArith_base.Q) :=
  match v with
  | [] => Some []
  | x :: v' =>
      match value x, values v' with
      | Some q, Some w => Some (q :: w)
      | _, _ => None
      end
  end.

Fixpoint matrix_values (A : fmatrix) : option (list (list QArith_base.Q)) :=
  match A with
  | [] => Some []
  | r :: A' =>
      match values r, matrix_values A' with
      | Some q, Some w => Some (q :: w)
      | _, _ => None
      end
  end.

(** The real number a finite binary64 number stands for. *)
Definition real_value (x : f64) : option R := option_map Q2R (value x).

(** The real matrix a matrix of finite binary64 numbers stands for. *)
Definition real_matrix (A : fmatrix) : option matrix :=
  option_map (map (map Q2R)) (matrix_values A).

(** [A[i][j]], when the array has that entry. *)
Definition fentry (A : fmatrix) (i j : nat) : option f64 :=
  match nth_error A i with
  | Some r => nth_error r j
  | None => None
  end.

Definition fsame_shape (A B : fmatrix) : Prop :=
  map (@length f64) A = map (@length f64) B.

Definition fsymmetric (A : fmatrix) : Prop :=
  forall i j, fentry A i j = fentry A j i.

(** [c * A] for a scalar [c]. *)
Definition fmat_scale (c : f64) (A : fmatrix) : fmatrix := map (map (PrimFloat.mul c)) A.

(** [u + v] for two vectors: the lengths must agree. *)
Fixpoint fvec_add (u v : list f64) : result (list f64) :=
  match u, v with
  | [], [] => Ok []
  | a :: u', b :: v' => w <- fvec_add u' v' ;; Ok (PrimFloat.add a b :: w)
  | _, _ => Raise ShapeMismatch
  end.

(** [A + B] for two matrices: the shapes must agree. *)
Fixpoint fmat_add (A B : fmatrix) : result fmatrix :=
  match A, B with
  | [], [] => Ok []
  | r :: A', s :: B' =>
      t <- fvec_add r s ;;
      M <- fmat_add A' B' ;;
      Ok (t :: M)
  | _, _ => Raise ShapeMismatch
  end.

(** [lerp_matrix(mat_a, mat_b, alpha)] *)
Definition lerp_matrix (mat_a mat_b : fmatrix) (alpha : f64) : result fmatrix :=
  fmat_add (fmat_scale (PrimFloat.sub PrimFloat.one alpha) mat_a) (fmat_scale alpha mat_b).

(** One entry of the blend: [(1 - alpha) * a + alpha * b], rounded thrice. *)
Definition blend (alpha a b : f64) : f64 :=
  PrimFloat.add (PrimFloat.mul (PrimFloat.sub PrimFloat.one alpha) a) (PrimFloat.mul alpha b).

End Binary64.

(** ** [geometry.py] *)

Module Geometry.

(** [wavy_ellipse_path(scale, wave_amplitude)]: the closure [path]. *)
Definition wavy_ellipse_path (scale wave_amplitude : R) : R -> vec3 :=
  fun t =>
    let x := scale * 3.0 * cos t in
    let y := scale * 1.8 * sin t in
    let x := x + wave_amplitude * sin (3 * t) in
    let y := y + wave_amplitude * cos (2 * t) in
    (x, y, 0.0).

(** [perfect_circle_path(radius)]: the closure [path]. *)
Definition perfect_circle_path (radius : R) : R -> vec3 :=
  fun t =>
    let x := radius * cos t in
    let y := radius * sin t in
    (x, y, 0.0).

(** [create_morphing_path(tracker, path_start, path_end)]: the closure
    [morphing_path].  It reads the tracker each time it is called;
    [tracker] is the value the tracker holds at that call. *)
Definition create_morphing_path (tracker : R) (path_start path_end : R -> vec3)
    : R -> vec3 :=
  fun t =>
    let alpha := tracker in
    let point_start := path_start t in
    let point_end := path_end t in
    vec3_add (vec3_scale (1 - alpha) point_start) (vec3_scale alpha point_end).

(** [abstract_landscape_surface]: the closure [surface_func(u, v)] given to
    the rendered surface.  Its divisors are the literals 9 and 4. *)
Definition surface_func (u v : R) : vec3 :=
  let x := u in
  let y := v in
  let z_gaussian := 0.8 * exp (- (u ^ 2 / 9 + v ^ 2 / 4)) in
  let z_wave := 0.4 * sin (0.8 * u) * cos (0.6 * v) in
  let z := z_gaussian + z_wave in
  (x, y, z).

(** [gaussian_level_set(level, sigma_x, sigma_y, amplitude)]: the closure
    [implicit_func(x, y)]. *)
Definition gaussian_level_set (level sigma_x sigma_y amplitude : R) (x y : R)
    : result R :=
  qx <- div (x ^ 2) (2 * sigma_x ^ 2) ;;
  qy <- div (y ^ 2) (2 * sigma_y ^ 2) ;;
  let z := amplitude * exp (- (qx + qy)) in
  Ok (z - level).

(** [quadratic_form_level_set(matrix, level)]: the closure
    [implicit_func(x, y)]. *)
Definition quadratic_form_level_set (Q : matrix) (level : R) (x y : R) : result R :=
  let vec := [x; y] in
  value <- quad_form vec Q ;;
  Ok (value - level).

(** [create_pod_covariance_matrix(theta, lambda1, lambda2)] *)
Definition create_pod_covariance_matrix (theta lambda1 lambda2 : R) : result matrix :=
  let cos_t := cos theta in
  let sin_t := sin theta in
  let R := [[cos_t; - sin_t]; [sin_t; cos_t]] in
  let Lambda := diag [lambda1; lambda2] in
  RL <- matmul R Lambda ;;
  matmul RL (transpose R).


(** [generate_contour_levels(func, x_range, y_range, num_levels, z_min, z_max)];
    [num_levels] is a count, so a natural number. *)
Definition generate_contour_levels (func : R -> R -> R) (x_range y_range : R * R)
    (num_levels : nat) (z_min z_max : R) : vector :=
  np_linspace z_min z_max num_levels.

End Geometry.

(** ** [pod_educational_2d.py] *)

Module Pod2D.

(** [scene2_energy_search.update_energy]: the energy shown for the point set
    [data_points] when the tracker holds [angle]. *)
Definition update_energy (data_points : matrix) (angle : R) : result R :=
  let direction := [cos angle; sin angle] in
  proj <- matvec data_points direction ;;
  Ok (np_sum (np_square proj)).


(** [scene2_energy_search.update_projections]: for the point [(x, y)] and
    the tracker at [angle], the foot [point_proj] of the dashed line, before
    [axes.c2p] places it on the screen. *)
Definition update_projections (x y angle : R) : result vector :=
  let v_dir := [cos angle; sin angle] in
  proj_length <- vecdot [x; y] v_dir ;;
  Ok [proj_length * nth 0 v_dir 0; proj_length * nth 1 v_dir 0].

(** [scene3_orthogonal_mode2]: the direction [v2_dir] of the second mode. *)
Definition mode2_direction (mode1_angle : R) : vector :=
  let mode2_angle := mode1_angle + PI / 2 in
  [cos mode2_angle; sin mode2_angle].

End Pod2D.

(** ** [base_scenes.py] *)

Module BaseScenes.

(** [build_energy_meter]: the denominator computed once from [samples]. *)
Definition total_energy (samples : matrix) : R :=
  np_sum (np_square (row_norms samples)) + 1e-6.

(** [build_energy_meter.energy_ratio], the tracker holding [angle]. *)
Definition energy_ratio (samples : matrix) (angle : R) : result R :=
  let direction := [cos angle; sin angle] in
  projections <- matvec samples direction ;;
  let energy := np_sum (np_square projections) in
  q <- div energy (total_energy samples) ;;
  Ok (clip q 0.0 1.0).


(** [build_energy_meter(samples, angle_tracker)] on whatever array
    [np.asarray(samples)] is: the denominator is computed when the meter is
    built, then [energy_ratio] is called with the tracker at [angle]. *)
Definition build_energy_meter (samples : ndarray) (angle : R) : result R :=
  norms <- nd_norm_axis1 samples ;;
  let total_energy := np_sum (np_square norms) + 1e-6 in
  let direction := [cos angle; sin angle] in
  projections <- nd_matvec samples direction ;;
  let energy := np_sum (np_square projections) in
  q <- div energy total_energy ;;
  Ok (clip q 0.0 1.0).

(** [build_energy_meter]: the width given to the progress bar, for an
    outline of width [outline_width]. *)
Definition progress_bar_width (samples : matrix) (angle outline_width : R) : result R :=
  r <- energy_ratio samples angle ;;
  Ok (Rmax 0.02 (r * (outline_width - 0.12))).

(** [build_energy_meter]: the number shown beside the bar. *)
Definition percent_value (samples : matrix) (angle : R) : result R :=
  r <- energy_ratio samples angle ;;
  Ok (100 * r).

End BaseScenes.

(** ** [pod_educational_3d.py] *)

Module Pod3D.

Section Scene5.
(** [np.linalg.eigh] belongs to NumPy: any function from a matrix to an
    array of eigenvalues and a matrix whose columns are eigenvectors. *)
Variable eigh : matrix -> vector * matrix.

(** [scene5_3d_extension]: the decomposition and reordering of
    [cov_3d_matrix]. *)
Definition pod_modes (cov_3d_matrix : matrix) : vector * matrix :=
  let '(eigvals, eigvecs) := eigh cov_3d_matrix in
  let order := rev (argsort eigvals) in
  let eigvals := take eigvals order in
  let eigvecs := take_cols eigvecs order in
  (eigvals, eigvecs).
End Scene5.


(** [scene5_3d_extension]: the share of every mode,
    [eigvals / np.sum(eigvals)]. *)
Definition energy_ratios (eigvals : vector) : result vector :=
  let total_energy := np_sum eigvals in
  vec_div eigvals total_energy.

End Pod3D.

(** ** [scene01_pod_review.py] *)

Module Scene01.

(** [_create_point_cloud]: the coordinate array [np.array(coords)].  The
    generator is the caller's: [draws] holds, for every sample, the angle
    drawn by [rng.uniform(0, 2 pi)] and the number drawn by [rng.random()]. *)
Definition create_point_cloud (width height : R) (draws : list (R * R)) : ndarray :=
  let coords :=
    map (fun '(theta, u) =>
           let radius := 0.35 + 0.6 * u in
           let x := 0.5 * width * radius * cos theta in
           let y := 0.5 * height * radius * sin theta in
           [x; y])
        draws in
  np_array coords.

(** [_create_axis_label.make_label]: the direction the label is put in, for
    an arrow from [arrow_start] to [arrow_end]. *)
Definition label_direction (arrow_start arrow_end : vec3) : result vec3 :=
  let arrow_dir := vec3_sub arrow_end arrow_start in
  if Rlt_dec 0.01 (vec3_norm arrow_dir)
  then vec3_div arrow_dir (vec3_norm arrow_dir)
  else Ok (1, 0, 0).

End Scene01.

(** ** [render_pod_split.py]

    Text is ASCII text.  What the script asks of the machine it runs on (the
    environment variable, the file system, the probing of an interpreter,
    the search path, the exit code of a rendering) is a [host], the same
    during one run of the script.  Printing is left out. *)

Module RenderSplit.
Local Open Scope string_scope.

Definition string : Type := String.string.

(** A string taken as a condition: true when it is not empty. *)
Definition truthy (s : string) : bool := negb (String.eqb s "").

Definition lower_char (c : Ascii.ascii) : Ascii.ascii :=
  let n := Ascii.nat_of_ascii c in
  if ((65 <=? n) && (n <=? 90))%nat then Ascii.ascii_of_nat (n + 32) else c.

(** [s.lower()] *)
Fixpoint lower (s : string) : string :=
  match s with
  | String.EmptyString => String.EmptyString
  | String.String c s' => String.String (lower_char c) (lower s')
  end.

(** [sub in s], both strings. *)
Fixpoint contains (sub s : string) : bool :=
  if String.prefix sub s then true
  else match s with
       | String.EmptyString => false
       | String.String _ s' => contains sub s'
       end.

(** [x in l], [l] a list of strings. *)
Definition member (x : string) (l : list string) : bool := existsb (String.eqb x) l.

(** [d.get(key, default)] for a dictionary written as a list of pairs. *)
Fixpoint dict_get (d : list (string * string)) (key default : string) : string :=
  match d with
  | [] => default
  | (k, v) :: d' => if String.eqb k key then v else dict_get d' key default
  end.

(** An entry of a directory, as [iterdir] gives it. *)
Record dir_entry : Type := {
  entry_path : string;
  entry_name : string;
  entry_is_dir : bool
}.

Record host : Type := {
  (** [os.environ.get("MANIM_EXECUTABLE")] *)
  environ_manim_executable : option string;
  (** [str(Path(p).expanduser())] *)
  expanduser : string -> string;
  (** [Path(p).is_file()] *)
  is_file : string -> bool;
  (** the two directories of [envs_dirs], in order: [None] when the
      directory does not exist, its entries in the order of [iterdir]
      otherwise *)
  envs_dirs : list (option (list dir_entry));
  (** [_find_python_in_env(env_path)] *)
  _find_python_in_env : string -> option string;
  (** [shutil.which("manim")] *)
  which_manim : option string;
  (** [importlib.util.find_spec("manim")] found a module *)
  find_spec_manim : bool;
  (** [sys.executable] *)
  sys_executable : string;
  (** [subprocess.run(cmd).returncode] *)
  run : list string -> Z
}.

(** [_resolve_manim_command]: the list [possible_envs]. *)
Definition possible_envs (h : host) : list dir_entry :=
  flat_map
    (fun envs_dir =>
       match envs_dir with
       | None => []
       | Some entries =>
           let manim_envs :=
             filter (fun p => entry_is_dir p && contains "manim" (lower (entry_name p)))
                    entries in
           let other_envs :=
             filter (fun p => entry_is_dir p && negb (contains "manim" (lower (entry_name p))))
                    entries in
           (manim_envs ++ other_envs)%list
       end)
    (envs_dirs h).

(** [_resolve_manim_command]: the loop over [possible_envs]. *)
Fixpoint first_python (find : string -> option string) (envs : list dir_entry)
    : option string :=
  match envs with
  | [] => None
  | env_path :: rest =>
      match find (entry_path env_path) with
      | Some python_exe =>
          if truthy python_exe then Some python_exe else first_python find rest
      | None => first_python find rest
      end
  end.

(** [_resolve_manim_command()]; [None] is the [RuntimeError] raised when
    nothing is found. *)
Definition _resolve_manim_command (h : host) : option (list string) :=
  let manual :=
    match environ_manim_executable h with
    | Some manual_exec =>
        if truthy manual_exec
        then let manual_path := expanduser h manual_exec in
             if is_file h manual_path then Some [manual_path] else None
        else None
    | None => None
    end in
  match manual with
  | Some cmd => Some cmd
  | None =>
      match first_python (_find_python_in_env h) (possible_envs h) with
      | Some python_exe => Some [python_exe; "-m"; "manim"]
      | None =>
          match which_manim h with
          | Some manim_exec =>
              if truthy manim_exec then Some [manim_exec]
              else if find_spec_manim h then Some [sys_executable h; "-m"; "manim"]
              else None
          | None =>
              if find_spec_manim h then Some [sys_executable h; "-m"; "manim"]
              else None
          end
      end
  end.

(** [_build_manim_args(scene_file, scene_class, quality_flag, preview_flag)] *)
Definition _build_manim_args (h : host) (scene_file scene_class quality_flag : string)
    (preview_flag : option string) : option (list string) :=
  match _resolve_manim_command h with
  | None => None
  | Some base =>
      let cmd := (base ++ [scene_file; scene_class; quality_flag])%list in
      match preview_flag with
      | Some flag => if truthy flag then Some (cmd ++ [flag])%list else Some cmd
      | None => Some cmd
      end
  end.

Definition quality_settings : list (string * string) :=
  [("low", "-ql"); ("medium", "-qm"); ("high", "-qh")].

(** [render_animation(part, quality, preview)]: the value returned and the
    commands run, in order; [None] when [RuntimeError] is raised. *)
Definition render_animation (h : host) (part quality : string) (preview : bool)
    : option (bool * list (list string)) :=
  let quality_flag := dict_get quality_settings quality "-qm" in
  let preview_flag := if preview then Some "-ps" else None in
  let success := true in
  let after_2d :=
    if member part ["2d"; "both"]
    then match _build_manim_args h "pod_educational_2d.py" "PODEducational2D"
                 quality_flag preview_flag with
         | None => None
         | Some cmd_2d =>
             if negb (run h cmd_2d =? 0)%Z then Some (false, [cmd_2d])
             else Some (success, [cmd_2d])
         end
    else Some (success, []) in
  match after_2d with
  | None => None
  | Some (success, ran) =>
      if member part ["3d"; "both"] && success
      then match _build_manim_args h "pod_educational_3d.py" "PODEducational3D"
                   quality_flag preview_flag with
           | None => None
           | Some cmd_3d =>
               if negb (run h cmd_3d =? 0)%Z then Some (false, ran ++ [cmd_3d])%list
               else Some (success, ran ++ [cmd_3d])%list
           end
      else Some (success, ran)
  end.

(** What the script does with its arguments: show the help, or call
    [render_animation] with a part, a quality and the preview flag. *)
Inductive action : Type :=
| Help
| Render (part quality : string) (preview : bool).

(** The block run under [__main__], for [sys.argv = argv]. *)
Definition main (argv : list string) : action :=
  let part := "both" in
  let quality := "medium" in
  let preview := false in
  let '(part, quality, preview) :=
    match nth_error argv 1 with
    | Some a =>
        let arg := lower a in
        if member arg ["2d"; "3d"; "both"] then (arg, quality, preview)
        else if member arg ["low"; "medium"; "high"] then (part, arg, preview)
        else if String.eqb arg "preview" then (part, quality, true)
        else (part, quality, preview)
    | None => (part, quality, preview)
    end in
  let '(part, quality, preview) :=
    match nth_error argv 2 with
    | Some a =>
        let arg := lower a in
        if member arg ["low"; "medium"; "high"] then (part, arg, preview)
        else if String.eqb arg "preview" then (part, quality, true)
        else (part, quality, preview)
    | None => (part, quality, preview)
    end in
  let preview :=
    match nth_error argv 3 with
    | Some a => if String.eqb (lower a) "preview" then true else preview
    | None => preview
    end in
  if member "--help" argv || member "-h" argv then Help
  else Render part quality preview.

End RenderSplit.

(** ** Notions the statements are written with *)

(** The sum of [f 0], ..., [f (n - 1)]. *)
Fixpoint Sigma (n : nat) (f : nat -> R) : R :=
  match n with
  | O => 0
  | S k => Sigma k f + f k
  end.

(** An N x 2 array: every row holds two numbers.  The empty point set is the
    array of shape (0, 2), the list of no row. *)
Definition n_by_2 (P : matrix) : Prop := Forall (fun r => length r = 2%nat) P.

(** The sum over the points [P_i] of the squared product of [P_i] and
    [[cos theta, sin theta]]. *)
Definition projected_energy (P : matrix) (theta : R) : R :=
  Sigma (length P) (fun i => (entry P i 0 * cos theta + entry P i 1 * sin theta) ^ 2).

(** The sum over the points [P_i] of the squared norm of [P_i]. *)
Definition sum_sq_norms (P : matrix) : R :=
  Sigma (length P) (fun i => entry P i 0 ^ 2 + entry P i 1 ^ 2).

(** The standard rotation matrix of the plane, by entries. *)
Definition rotation (theta : R) (i j : nat) : R :=
  match i, j with
  | 0%nat, 0%nat => cos theta
  | 0%nat, 1%nat => - sin theta
  | 1%nat, 0%nat => sin theta
  | 1%nat, 1%nat => cos theta
  | _, _ => 0
  end.

(** The entry [(i, j)] of [R(theta) . diag(l1, l2) . R(theta)^T]. *)
Definition rot_diag_rot (theta l1 l2 : R) (i j : nat) : R :=
  rotation theta i 0 * l1 * rotation theta j 0
  + rotation theta i 1 * l2 * rotation theta j 1.

(** Two arrays of one shape: the same rows of the same lengths. *)
Definition same_shape (A B : matrix) : Prop :=
  map (@length R) A = map (@length R) B.

(** [v^T Q v] written with the entries of an [n] x [n] array [Q]: the sum
    over [j] of [(sum over i of v_i Q_ij) v_j]. *)
Definition quad_entries (n : nat) (v : vector) (Q : matrix) : R :=
  Sigma n (fun j => Sigma n (fun i => nth i v 0 * entry Q i j) * nth j v 0).

(** [Q] has [n] rows of [n] numbers. *)
Definition is_square (n : nat) (Q : matrix) : Prop :=
  length Q = n /\ Forall (fun r => length r = n) Q.

Definition symmetric (Q : matrix) : Prop :=
  is_square (length Q) Q /\ forall i j, entry Q i j = entry Q j i.

Definition zero_vector (n : nat) : vector := repeat 0 n.

(** [v^T Q v] is positive at every vector but the zero vector. *)
Definition pos_def (Q : matrix) : Prop :=
  forall v, length v = length Q -> v <> zero_vector (length Q) ->
    exists q, quad_form v Q = Ok q /\ 0 < q.

(** [v^T Q v] is never negative. *)
Definition pos_semidef (Q : matrix) : Prop :=
  forall v, length v = length Q -> exists q, quad_form v Q = Ok q /\ 0 <= q.

(** [v^T Q v] takes a positive and a negative value. *)
Definition indefinite (Q : matrix) : Prop :=
  (exists u q, length u = length Q /\ quad_form u Q = Ok q /\ 0 < q) /\
  (exists v q, length v = length Q /\ quad_form v Q = Ok q /\ q < 0).

(** The Gaussian of the docstring of [gaussian_gradient]:
    [A exp(-(x - cx)^2 / (2 sx^2) - (y - cy)^2 / (2 sy^2))]. *)
Definition gaussian (cx cy sigma_x sigma_y amplitude : R) (x y : R) : R :=
  amplitude * exp (- (x - cx) ^ 2 / (2 * sigma_x ^ 2) - (y - cy) ^ 2 / (2 * sigma_y ^ 2)).

(** The field whose gradient [composite_gradient] is meant to be: a Gaussian
    peak of widths 3 and 2 and amplitude 0.8, plus a ripple. *)
Definition landscape_field (x y : R) : R :=
  0.8 * exp (- x ^ 2 / (2 * 3 ^ 2) - y ^ 2 / (2 * 2 ^ 2))
  + 0.4 * sin (0.8 * x) * cos (0.6 * y).

(** [g] is the gradient [[df/dx, df/dy, 0]] of [f] at [(x, y)]. *)
Definition gradient_at (f : R -> R -> R) (x y : R) (g : vec3) : Prop :=
  let '(gx, gy, gz) := g in
  derivable_pt_lim (fun u => f u y) x gx /\
  derivable_pt_lim (fun v => f x v) y gy /\
  gz = 0.

(** Moving from [(x, y)] along [g], the field [f] does not decrease to first
    order: the derivative of [t |-> f ((x, y) + t g)] at 0 exists and is not
    negative. *)
Definition ascent_direction (f : R -> R -> R) (x y : R) (g : vec3) : Prop :=
  let '(gx, gy, _) := g in
  exists slope,
    derivable_pt_lim (fun t => f (x + t * gx) (y + t * gy)) 0 slope /\ 0 <= slope.

(** The height of the rendered surface over [(u, v)]. *)
Definition surface_height (u v : R) : R :=
  let '(_, _, z) := Geometry.surface_func u v in z.

(** The cubic [3 s^2 - 2 s^3]. *)
Definition hermite (s : R) : R := 3 * s ^ 2 - 2 * s ^ 3.

(** [l] is in descending order: each entry is at least the next one. *)
Definition descending (l : vector) : Prop := Sorted Rge l.

(** * Properties *)

(** Decimal literals as quotients of integers, for [field] and [ring]. *)
Ltac unlit := cbv [Q2R QArith_base.Qnum QArith_base.Qden] in *.

Lemma div_ok (a b : R) : b <> 0 -> div a b = Ok (a / b).
Proof.
  intros Hb. unfold div.
  destruct (Req_dec_T b 0) as [E | _]; [contradiction | reflexivity].
Qed.

Lemma div_zero (a b : R) : b = 0 -> div a b = Raise ZeroDivision.
Proof.
  intros Hb. unfold div.
  destruct (Req_dec_T b 0) as [_ | N]; [reflexivity | contradiction].
Qed.

Lemma clip_below (x : R) : x <= 0 -> clip x 0.0 1.0 = 0.
Proof.
  intros H. unfold clip. rewrite Rmax_right by lra. rewrite Rmin_left; lra.
Qed.

Lemma clip_above (x : R) : 1 <= x -> clip x 0.0 1.0 = 1.
Proof.
  intros H. unfold clip. rewrite Rmax_left by lra. rewrite Rmin_right; lra.
Qed.

Lemma clip_inside (x : R) : 0 <= x <= 1 -> clip x 0.0 1.0 = x.
Proof.
  intros H. unfold clip. rewrite Rmax_left by lra. rewrite Rmin_left; lra.
Qed.

Lemma clip_range (x : R) : 0 <= clip x 0.0 1.0 <= 1.
Proof.
  unfold clip. destruct (Rle_dec x 0).
  - rewrite Rmax_right by lra. rewrite Rmin_left; lra.
  - rewrite Rmax_left by lra. apply Rmin_case_strong; lra.
Qed.

(** ** [smooth_step] *)

Lemma smooth_step_unfold (t e0 e1 : R) :
  e0 < e1 ->
  Helpers.smooth_step t e0 e1 =
  Ok (let s := clip ((t - e0) / (e1 - e0)) 0.0 1.0 in s * s * (3.0 - 2.0 * s)).
Proof.
  intros H. unfold Helpers.smooth_step. rewrite div_ok by lra. reflexivity.
Qed.

Lemma normalized_range (t e0 e1 : R) :
  e0 < e1 -> e0 <= t <= e1 -> 0 <= (t - e0) / (e1 - e0) <= 1.
Proof.
  intros H [H0 H1]. split.
  - apply Rmult_le_pos; [lra | left; apply Rinv_0_lt_compat; lra].
  - apply Rmult_le_reg_r with (e1 - e0); [lra |].
    unfold Rdiv. rewrite Rmult_assoc, Rinv_l by lra. lra.
Qed.

Lemma hermite_monotone (a b : R) :
  0 <= a -> a <= b -> b <= 1 -> a * a * (3 - 2 * a) <= b * b * (3 - 2 * b).
Proof.
  intros Ha Hab Hb.
  assert (E : b * b * (3 - 2 * b) - a * a * (3 - 2 * a)
              = (b - a) * (3 * (a + b) - 2 * (a * a + a * b + b * b))) by ring.
  assert (0 <= 3 * (a + b) - 2 * (a * a + a * b + b * b)) by nra.
  assert (0 <= (b - a) * (3 * (a + b) - 2 * (a * a + a * b + b * b)))
    by (apply Rmult_le_pos; lra).
  lra.
Qed.

(** C7.  For [edge0 < edge1], [smooth_step] returns 0 at [edge0] and 1 at
    [edge1], does not decrease on [[edge0, edge1]], returns 0 below [edge0]
    and 1 above [edge1], and on the interval is the cubic [3 s^2 - 2 s^3] of
    [s = (t - edge0) / (edge1 - edge0)]. *)
Theorem smooth_step_spec (edge0 edge1 : R) :
  edge0 < edge1 ->
  Helpers.smooth_step edge0 edge0 edge1 = Ok 0 /\
  Helpers.smooth_step edge1 edge0 edge1 = Ok 1 /\
  (forall t1 t2, edge0 <= t1 -> t1 <= t2 -> t2 <= edge1 ->
     exists v1 v2,
       Helpers.smooth_step t1 edge0 edge1 = Ok v1 /\
       Helpers.smooth_step t2 edge0 edge1 = Ok v2 /\
       v1 <= v2) /\
  (forall t, t < edge0 -> Helpers.smooth_step t edge0 edge1 = Ok 0) /\
  (forall t, edge1 < t -> Helpers.smooth_step t edge0 edge1 = Ok 1) /\
  (forall t, edge0 <= t <= edge1 ->
     Helpers.smooth_step t edge0 edge1 = Ok (hermite ((t - edge0) / (edge1 - edge0)))).
Proof.
  intros He.
  assert (Hbelow : forall t, t <= edge0 -> Helpers.smooth_step t edge0 edge1 = Ok 0).
  { intros t Ht. rewrite smooth_step_unfold by assumption. cbv zeta.
    rewrite clip_below.
    - f_equal. lra.
    - apply Rmult_le_reg_r with (edge1 - edge0); [lra |].
      unfold Rdiv. rewrite Rmult_assoc, Rinv_l by lra. lra. }
  assert (Habove : forall t, edge1 <= t -> Helpers.smooth_step t edge0 edge1 = Ok 1).
  { intros t Ht. rewrite smooth_step_unfold by assumption. cbv zeta.
    rewrite clip_above.
    - f_equal. lra.
    - apply Rmult_le_reg_r with (edge1 - edge0); [lra |].
      unfold Rdiv. rewrite Rmult_assoc, Rinv_l by lra. lra. }
  repeat split.
  - apply Hbelow. lra.
  - apply Habove. lra.
  - intros t1 t2 H0 H12 H1.
    rewrite !smooth_step_unfold by assumption. cbv zeta.
    rewrite !clip_inside by (apply normalized_range; lra).
    eexists. eexists. split; [reflexivity |]. split; [reflexivity |].
    pose proof (normalized_range t1 edge0 edge1 He ltac:(lra)) as [Ha _].
    pose proof (normalized_range t2 edge0 edge1 He ltac:(lra)) as [_ Hb].
    assert (Hab : (t1 - edge0) / (edge1 - edge0) <= (t2 - edge0) / (edge1 - edge0)).
    { unfold Rdiv. apply Rmult_le_compat_r; [| lra].
      left. apply Rinv_0_lt_compat. lra. }
    replace 3.0 with 3 by lra. replace 2.0 with 2 by lra.
    apply hermite_monotone; assumption.
  - intros t Ht. apply Hbelow. lra.
  - intros t Ht. apply Habove. lra.
  - intros t Ht. rewrite smooth_step_unfold by assumption. cbv zeta.
    rewrite clip_inside by (apply normalized_range; lra).
    f_equal. unfold hermite. replace 3.0 with 3 by lra. replace 2.0 with 2 by lra.
    ring.
Qed.

Lemma smooth_step_spec_witness :
  0 < 1 /\ Helpers.smooth_step 0 0 1 = Ok 0 /\ Helpers.smooth_step 1 0 1 = Ok 1.
Proof.
  assert (H : 0 < 1) by exact Rlt_0_1.
  split; [exact H |].
  split; [exact (proj1 (smooth_step_spec 0 1 H))
         | exact (proj1 (proj2 (smooth_step_spec 0 1 H)))].
Defined.

(** Half way between the default edges the step is at one half. *)
Example smooth_step_half : Helpers.smooth_step 0.5 0.0 1.0 = Ok 0.5.
Proof.
  rewrite smooth_step_unfold by lra. cbv zeta.
  rewrite clip_inside by (split; unlit; lra).
  f_equal. unlit. field.
Qed.

(** ** [numerical_gradient_2d] *)

(** C9.  [numerical_gradient_2d] does not look at the step [h]: for [h] other
    than zero it returns the two central differences and 0, no division by
    zero being met, and for [h = 0] it ends in a division by zero. *)
Theorem numerical_gradient_2d_spec (func : R -> R -> R) (x y h : R) :
  (h <> 0 ->
   Helpers.numerical_gradient_2d func x y h =
   Ok ((func (x + h) y - func (x - h) y) / (2 * h),
       (func x (y + h) - func x (y - h)) / (2 * h),
       0)) /\
  Helpers.numerical_gradient_2d func x y 0 = Raise ZeroDivision.
Proof.
  split.
  - intros Hh. unfold Helpers.numerical_gradient_2d.
    rewrite !div_ok by lra. cbn. do 2 f_equal. lra.
  - unfold Helpers.numerical_gradient_2d.
    rewrite div_zero by lra. reflexivity.
Qed.

Lemma numerical_gradient_2d_spec_witness :
  Helpers.numerical_gradient_2d (fun x y => x * y) 1 2 1 =
  Ok (((1 + 1) * 2 - (1 - 1) * 2) / (2 * 1), (1 * (2 + 1) - 1 * (2 - 1)) / (2 * 1), 0).
Proof.
  exact (proj1 (numerical_gradient_2d_spec (fun x y => x * y) 1 2 1) R1_neq_R0).
Defined.

(** With the default step, the gradient of [x * y] at [(1, 2)] is [(2, 1, 0)]. *)
Example numerical_gradient_2d_product :
  Helpers.numerical_gradient_2d (fun x y => x * y) 1 2 0.01 = Ok (2, 1, 0).
Proof.
  unfold Helpers.numerical_gradient_2d. rewrite !div_ok by lra. cbn.
  repeat f_equal; unlit; field.
Qed.

(** ** [lerp_path] *)

Lemma lerp_path_at_0 (path_a path_b : R -> vec3) (t : R) :
  Helpers.lerp_path path_a path_b 0 t = path_a t.
Proof.
  unfold Helpers.lerp_path. cbv zeta.
  destruct (path_a t) as [[xa ya] za], (path_b t) as [[xb yb] zb]. cbn.
  repeat f_equal; ring.
Qed.

Lemma lerp_path_at_1 (path_a path_b : R -> vec3) (t : R) :
  Helpers.lerp_path path_a path_b 1 t = path_b t.
Proof.
  unfold Helpers.lerp_path. cbv zeta.
  destruct (path_a t) as [[xa ya] za], (path_b t) as [[xb yb] zb]. cbn.
  repeat f_equal; ring.
Qed.

(** ** Sums *)

Lemma Sigma_ext (n : nat) (f g : nat -> R) :
  (forall i, (i < n)%nat -> f i = g i) -> Sigma n f = Sigma n g.
Proof.
  induction n as [| n IH]; intros H; cbn; [reflexivity |].
  rewrite IH by (intros i Hi; apply H; lia).
  rewrite (H n) by lia. reflexivity.
Qed.

Lemma Sigma_shift (n : nat) (f : nat -> R) :
  Sigma (S n) f = f 0%nat + Sigma n (fun i => f (S i)).
Proof.
  induction n as [| n IH].
  - cbn. ring.
  - change (Sigma (S (S n)) f) with (Sigma (S n) f + f (S n)).
    rewrite IH. cbn. ring.
Qed.

Lemma Sigma_lincomb (n : nat) (a b : R) (f g : nat -> R) :
  Sigma n (fun i => a * f i + b * g i) = a * Sigma n f + b * Sigma n g.
Proof.
  induction n as [| n IH]; cbn; [ring |]. rewrite IH. ring.
Qed.

Lemma Sigma_nonneg (n : nat) (f : nat -> R) :
  (forall i, (i < n)%nat -> 0 <= f i) -> 0 <= Sigma n f.
Proof.
  induction n as [| n IH]; intros H; cbn; [lra |].
  assert (0 <= Sigma n f) by (apply IH; intros i Hi; apply H; lia).
  assert (0 <= f n) by (apply H; lia). lra.
Qed.

Lemma fold_left_Rplus_acc (l : vector) (a : R) :
  fold_left Rplus l a = a + fold_left Rplus l 0.
Proof.
  revert a. induction l as [| x l IH]; intros a; cbn.
  - ring.
  - rewrite IH. rewrite (IH (0 + x)). ring.
Qed.

Lemma np_sum_cons (x : R) (l : vector) : np_sum (x :: l) = x + np_sum l.
Proof.
  unfold np_sum. cbn. rewrite fold_left_Rplus_acc. ring.
Qed.

Lemma np_sum_Sigma (l : vector) :
  np_sum l = Sigma (length l) (fun i => nth i l 0).
Proof.
  induction l as [| x l IH].
  - reflexivity.
  - rewrite np_sum_cons. cbn [length]. rewrite Sigma_shift. cbn [nth].
    rewrite IH. reflexivity.
Qed.

Lemma dot_raw_Sigma (u v : vector) :
  length u = length v ->
  dot_raw u v = Sigma (length u) (fun i => nth i u 0 * nth i v 0).
Proof.
  revert v. induction u as [| a u IH]; intros [| b v] H; try discriminate.
  - reflexivity.
  - cbn [dot_raw length]. rewrite Sigma_shift. cbn [nth].
    rewrite IH by (cbn in H; lia). reflexivity.
Qed.

Lemma nth_map_seq (g : nat -> R) (n j : nat) :
  (j < n)%nat -> nth j (map g (seq 0 n)) 0 = g j.
Proof.
  intros Hj.
  rewrite (nth_indep _ 0 (g 0%nat)) by (rewrite length_map, length_seq; exact Hj).
  rewrite map_nth. rewrite seq_nth by exact Hj. reflexivity.
Qed.

(** ** Shapes and entries *)

Lemma nth_map_Rmult (c : R) (r : vector) (j : nat) :
  nth j (map (Rmult c) r) 0 = c * nth j r 0.
Proof.
  revert j. induction r as [| x r IH]; intros [| j]; cbn; try ring; try reflexivity.
  apply IH.
Qed.

Lemma mat_scale_entry (c : R) (A : matrix) (i j : nat) :
  entry (mat_scale c A) i j = c * entry A i j.
Proof.
  unfold entry, mat_scale.
  change (@nil R) with (map (Rmult c) []) at 1.
  rewrite map_nth. apply nth_map_Rmult.
Qed.

Lemma mat_scale_shape (c : R) (A : matrix) : same_shape (mat_scale c A) A.
Proof.
  unfold same_shape, mat_scale. rewrite map_map.
  apply map_ext. intros r. apply length_map.
Qed.

Lemma vec_add_inv (u v w : vector) :
  vec_add u v = Ok w ->
  length w = length u /\ length u = length v /\
  forall j, nth j w 0 = nth j u 0 + nth j v 0.
Proof.
  revert v w. induction u as [| a u IH]; intros [| b v] w H; cbn in H; try discriminate.
  - injection H as <-. repeat split. intros [| j]; cbn; ring.
  - destruct (vec_add u v) as [w' |] eqn:E; cbn in H; [| discriminate].
    injection H as <-. destruct (IH v w' E) as (L1 & L2 & N).
    cbn. repeat split; try congruence.
    intros [| j]; [reflexivity | apply N].
Qed.

Lemma vec_add_ok (u v : vector) :
  length u = length v -> exists w, vec_add u v = Ok w.
Proof.
  revert v. induction u as [| a u IH]; intros [| b v] H; try discriminate.
  - exists []. reflexivity.
  - destruct (IH v) as [w E]; [cbn in H; lia |].
    exists (a + b :: w). cbn. rewrite E. reflexivity.
Qed.

Lemma mat_add_inv (A B M : matrix) :
  mat_add A B = Ok M ->
  same_shape M A /\ same_shape A B /\
  forall i j, entry M i j = entry A i j + entry B i j.
Proof.
  unfold same_shape.
  revert B M. induction A as [| r A IH]; intros [| s B] M H; cbn in H; try discriminate.
  - injection H as <-. repeat split. intros [| i] [| j]; cbn; ring.
  - destruct (vec_add r s) as [t |] eqn:Et; cbn in H; [| discriminate].
    destruct (mat_add A B) as [M' |] eqn:Em; cbn in H; [| discriminate].
    injection H as <-.
    destruct (vec_add_inv r s t Et) as (L1 & L2 & N).
    destruct (IH B M' Em) as (S1 & S2 & E).
    cbn. repeat split; try congruence.
    intros [| i] j; [apply N | apply E].
Qed.

Lemma mat_add_ok (A B : matrix) :
  same_shape A B -> exists M, mat_add A B = Ok M.
Proof.
  unfold same_shape.
  revert B. induction A as [| r A IH]; intros [| s B] H; try discriminate.
  - exists []. reflexivity.
  - cbn in H. injection H as Hl Hs.
    destruct (vec_add_ok r s Hl) as [t Et]. destruct (IH B Hs) as [M Em].
    exists (t :: M). cbn. rewrite Et, Em. reflexivity.
Qed.

Lemma same_shape_sym (A B : matrix) : same_shape A B -> same_shape B A.
Proof. unfold same_shape. congruence. Qed.

Lemma same_shape_trans (A B C : matrix) :
  same_shape A B -> same_shape B C -> same_shape A C.
Proof. unfold same_shape. congruence. Qed.

Lemma same_shape_length (A B : matrix) : same_shape A B -> length A = length B.
Proof.
  unfold same_shape. intros H.
  apply (f_equal (@length nat)) in H. rewrite !length_map in H. exact H.
Qed.

Lemma same_shape_ncols (A B : matrix) : same_shape A B -> ncols A = ncols B.
Proof.
  unfold same_shape, ncols. intros H.
  destruct A as [| r A], B as [| s B]; try discriminate; [reflexivity |].
  cbn in *. congruence.
Qed.

Lemma rectangular_shape (A : matrix) :
  rectangular A = forallb (fun n => n =? ncols A)%nat (map (@length R) A).
Proof.
  unfold rectangular. generalize (ncols A) as n. intros n.
  induction A as [| r A IH]; cbn; [reflexivity |]. rewrite IH. reflexivity.
Qed.

Lemma same_shape_rectangular (A B : matrix) :
  same_shape A B -> rectangular A = rectangular B.
Proof.
  intros H. rewrite !rectangular_shape.
  rewrite (same_shape_ncols A B H). unfold same_shape in H. rewrite H. reflexivity.
Qed.

(** Two arrays of one shape with the same entries are equal. *)
Lemma entry_ext (A B : matrix) :
  same_shape A B -> (forall i j, entry A i j = entry B i j) -> A = B.
Proof.
  unfold same_shape.
  revert B. induction A as [| r A IH]; intros [| s B] H E; try discriminate.
  - reflexivity.
  - cbn in H. injection H as Hl Hs. f_equal.
    + apply (nth_ext r s 0 0 Hl). intros j _. exact (E 0%nat j).
    + apply IH; [exact Hs |]. intros i j. exact (E (S i) j).
Qed.

(** ** The quadratic form [v @ Q @ v] *)

Lemma nth_col (Q : matrix) (i j : nat) :
  (i < length Q)%nat -> nth i (col j Q) 0 = entry Q i j.
Proof.
  intros Hi. unfold col, entry.
  rewrite (nth_indep _ 0 ((fun r => nth j r 0) [])) by (rewrite length_map; exact Hi).
  apply (map_nth (fun r : vector => nth j r 0)).
Qed.

Lemma quad_raw_entries (v : vector) (Q : matrix) :
  length v = length Q -> ncols Q = length v ->
  dot_raw (map (dot_raw v) (transpose Q)) v = quad_entries (length v) v Q.
Proof.
  intros Hl Hc. unfold transpose, quad_entries. rewrite map_map, Hc.
  rewrite dot_raw_Sigma by (rewrite length_map, length_seq; reflexivity).
  rewrite length_map, length_seq.
  apply Sigma_ext. intros j Hj.
  rewrite (nth_map_seq (fun j => dot_raw v (col j Q))) by exact Hj.
  f_equal.
  rewrite dot_raw_Sigma by (unfold col; rewrite length_map; exact Hl).
  apply Sigma_ext. intros i Hi.
  rewrite nth_col by lia. reflexivity.
Qed.

Lemma quad_form_ok (v : vector) (Q : matrix) :
  length v = length Q -> rectangular Q = true -> ncols Q = length v ->
  quad_form v Q = Ok (quad_entries (length v) v Q).
Proof.
  intros Hl Hr Hc. unfold quad_form, vecmat.
  rewrite (proj2 (Nat.eqb_eq _ _) Hl), Hr. cbn [andb bind]. unfold vecdot.
  rewrite length_map. unfold transpose at 1. rewrite length_map, length_seq.
  rewrite (proj2 (Nat.eqb_eq _ _) Hc).
  rewrite quad_raw_entries by assumption. reflexivity.
Qed.

Lemma quad_form_inv (v : vector) (Q : matrix) (q : R) :
  quad_form v Q = Ok q ->
  length v = length Q /\ rectangular Q = true /\ ncols Q = length v /\
  q = quad_entries (length v) v Q.
Proof.
  intros H. unfold quad_form, vecmat in H.
  destruct (length v =? length Q)%nat eqn:El; cbn in H; [| discriminate].
  destruct (rectangular Q) eqn:Er; cbn in H; [| discriminate].
  unfold vecdot in H. rewrite length_map in H.
  unfold transpose in H at 1. rewrite length_map, length_seq in H.
  destruct (ncols Q =? length v)%nat eqn:Ec; [| discriminate].
  apply Nat.eqb_eq in El, Ec. injection H as <-.
  repeat split; try assumption. apply quad_raw_entries; assumption.
Qed.

Lemma quad_entries_lincomb (n : nat) (v : vector) (A B M : matrix) (a b : R) :
  (forall i j, entry M i j = a * entry A i j + b * entry B i j) ->
  quad_entries n v M = a * quad_entries n v A + b * quad_entries n v B.
Proof.
  intros E. unfold quad_entries. rewrite <- Sigma_lincomb.
  apply Sigma_ext. intros j _.
  rewrite <- !Rmult_assoc, <- Rmult_plus_distr_r. f_equal.
  rewrite <- Sigma_lincomb. apply Sigma_ext. intros i _. rewrite E. ring.
Qed.

Lemma nth_zero_vector (n i : nat) : nth i (zero_vector n) 0 = 0.
Proof.
  unfold zero_vector. revert i. induction n as [| n IH]; intros [| i]; cbn; auto.
Qed.

Lemma quad_entries_zero (n m : nat) (Q : matrix) :
  quad_entries n (zero_vector m) Q = 0.
Proof.
  unfold quad_entries.
  rewrite (Sigma_ext n _ (fun _ => 0)).
  - clear. induction n as [| n IH]; cbn; [reflexivity | rewrite IH; ring].
  - intros j _. rewrite nth_zero_vector. ring.
Qed.

(** ** [lerp_matrix] *)

Lemma lerp_matrix_inv (A B M : matrix) (alpha : R) :
  Helpers.lerp_matrix A B alpha = Ok M ->
  same_shape M A /\ same_shape A B /\
  forall i j, entry M i j = (1 - alpha) * entry A i j + alpha * entry B i j.
Proof.
  intros H. unfold Helpers.lerp_matrix in H.
  destruct (mat_add_inv _ _ _ H) as (S1 & S2 & E).
  pose proof (mat_scale_shape (1 - alpha) A) as Sa.
  pose proof (mat_scale_shape alpha B) as Sb.
  repeat split.
  - exact (same_shape_trans _ _ _ S1 Sa).
  - exact (same_shape_trans _ _ _ (same_shape_sym _ _ Sa)
             (same_shape_trans _ _ _ S2 Sb)).
  - intros i j. rewrite E, !mat_scale_entry. reflexivity.
Qed.

Lemma lerp_matrix_ok (A B : matrix) (alpha : R) :
  same_shape A B -> exists M, Helpers.lerp_matrix A B alpha = Ok M.
Proof.
  intros H. unfold Helpers.lerp_matrix. apply mat_add_ok.
  eapply same_shape_trans; [apply mat_scale_shape |].
  eapply same_shape_trans; [exact H |].
  apply same_shape_sym, mat_scale_shape.
Qed.

Lemma lerp_matrix_at_0 (A B : matrix) :
  same_shape A B -> Helpers.lerp_matrix A B 0 = Ok A.
Proof.
  intros H. destruct (lerp_matrix_ok A B 0 H) as [M E]. rewrite E. f_equal.
  destruct (lerp_matrix_inv _ _ _ _ E) as (S1 & _ & N).
  apply entry_ext; [exact S1 |]. intros i j. rewrite N. ring.
Qed.

Lemma lerp_matrix_at_1 (A B : matrix) :
  same_shape A B -> Helpers.lerp_matrix A B 1 = Ok B.
Proof.
  intros H. destruct (lerp_matrix_ok A B 1 H) as [M E]. rewrite E. f_equal.
  destruct (lerp_matrix_inv _ _ _ _ E) as (S1 & S2 & N).
  apply entry_ext; [eapply same_shape_trans; eassumption |].
  intros i j. rewrite N. ring.
Qed.

Lemma same_shape_is_square (n : nat) (A B : matrix) :
  same_shape A B -> is_square n B -> is_square n A.
Proof.
  intros H [Hl Hr]. split.
  - rewrite (same_shape_length A B H). exact Hl.
  - apply (Forall_map (@length R) (fun k => k = n)).
    unfold same_shape in H. rewrite H.
    apply (Forall_map (@length R) (fun k => k = n)). exact Hr.
Qed.

Lemma lerp_matrix_symmetric (A B M : matrix) (alpha : R) :
  Helpers.lerp_matrix A B alpha = Ok M ->
  symmetric A -> symmetric B -> symmetric M.
Proof.
  intros H [Sq Ea] [_ Eb].
  destruct (lerp_matrix_inv _ _ _ _ H) as (S1 & _ & N).
  split.
  - rewrite (same_shape_length M A S1). eapply same_shape_is_square; eassumption.
  - intros i j. rewrite !N, (Ea i j), (Eb i j). reflexivity.
Qed.

(** The blend of two positive-definite matrices by a factor of [[0, 1]] is
    positive-definite. *)
Lemma lerp_matrix_pos_def (A B M : matrix) (alpha : R) :
  Helpers.lerp_matrix A B alpha = Ok M ->
  0 <= alpha <= 1 -> pos_def A -> pos_def B -> pos_def M.
Proof.
  intros H Ha PA PB v Hl Hv.
  destruct (lerp_matrix_inv _ _ _ _ H) as (S1 & S2 & N).
  pose proof (same_shape_length M A S1) as L1.
  pose proof (same_shape_length A B S2) as L2.
  destruct (PA v) as (qa & Qa & Pa); [congruence | congruence |].
  destruct (PB v) as (qb & Qb & Pb); [congruence | congruence |].
  destruct (quad_form_inv _ _ _ Qa) as (_ & Ra & Ca & ->).
  destruct (quad_form_inv _ _ _ Qb) as (_ & _ & _ & ->).
  exists (quad_entries (length v) v M). split.
  - apply quad_form_ok; [exact Hl | |].
    + rewrite (same_shape_rectangular M A S1). exact Ra.
    + rewrite (same_shape_ncols M A S1). exact Ca.
  - rewrite (quad_entries_lincomb _ v A B M (1 - alpha) alpha N).
    destruct (Rle_dec alpha (1 / 2)).
    + assert (0 < (1 - alpha) * quad_entries (length v) v A)
        by (apply Rmult_lt_0_compat; lra).
      assert (0 <= alpha * quad_entries (length v) v B)
        by (apply Rmult_le_pos; lra).
      lra.
    + assert (0 <= (1 - alpha) * quad_entries (length v) v A)
        by (apply Rmult_le_pos; lra).
      assert (0 < alpha * quad_entries (length v) v B)
        by (apply Rmult_lt_0_compat; lra).
      lra.
Qed.

(** Two-by-two symmetric matrices. *)

Lemma symmetric_2x2 (a b d : R) : symmetric [[a; b]; [b; d]].
Proof.
  split.
  - split; [reflexivity | repeat constructor].
  - intros i j. unfold entry.
    do 3 (try destruct i as [| i]); do 3 (try destruct j as [| j]);
      reflexivity.
Qed.

Lemma quad_form_sym_2x2 (a b d x y : R) :
  quad_form [x; y] [[a; b]; [b; d]] = Ok (a * x * x + 2 * b * x * y + d * y * y).
Proof.
  cbn. f_equal. ring.
Qed.

(** Positive leading entry and positive determinant. *)
Lemma pos_def_2x2 (a b d : R) :
  0 < a -> 0 < a * d - b * b -> pos_def [[a; b]; [b; d]].
Proof.
  intros Ha Hdet v Hl Hv.
  destruct v as [| x [| y [| z v]]]; try discriminate.
  rewrite quad_form_sym_2x2. eexists. split; [reflexivity |].
  set (q := a * x * x + 2 * b * x * y + d * y * y).
  assert (E : a * q = (a * x + b * y) * (a * x + b * y) + (a * d - b * b) * (y * y))
    by (unfold q; ring).
  assert (Hsq : 0 <= (a * x + b * y) * (a * x + b * y)) by apply Rle_0_sqr.
  apply Rmult_lt_reg_l with a; [exact Ha |]. rewrite Rmult_0_r, E.
  destruct (Req_dec_T y 0) as [-> | Hy].
  - destruct (Req_dec_T x 0) as [-> | Hx]; [exfalso; apply Hv; reflexivity |].
    assert (Hax : 0 < a * x \/ a * x < 0).
    { destruct (Rtotal_order x 0) as [L | [Z | G]]; [right | contradiction | left].
      - replace 0 with (a * 0) by ring. apply Rmult_lt_compat_l; assumption.
      - apply Rmult_lt_0_compat; assumption. }
    replace ((a * x + b * 0) * (a * x + b * 0) + (a * d - b * b) * (0 * 0))
      with ((a * x) * (a * x)) by ring.
    destruct Hax as [P | N]; [apply Rmult_lt_0_compat; assumption |].
    replace (a * x * (a * x)) with ((- (a * x)) * (- (a * x))) by ring.
    apply Rmult_lt_0_compat; lra.
  - assert (0 < y * y).
    { destruct (Rtotal_order y 0) as [L | [Z | G]]; [| contradiction |].
      - replace (y * y) with ((- y) * (- y)) by ring. apply Rmult_lt_0_compat; lra.
      - apply Rmult_lt_0_compat; assumption. }
    assert (0 < (a * d - b * b) * (y * y)) by (apply Rmult_lt_0_compat; assumption).
    lra.
Qed.

(** Positive leading entry and negative determinant. *)
Lemma indefinite_2x2 (a b d : R) :
  0 < a -> a * d - b * b < 0 -> indefinite [[a; b]; [b; d]].
Proof.
  intros Ha Hdet. split.
  - exists [1; 0], a. split; [reflexivity |].
    split; [rewrite quad_form_sym_2x2; f_equal; ring | exact Ha].
  - exists [b; - a], (a * (a * d - b * b)). split; [reflexivity |].
    split; [rewrite quad_form_sym_2x2; f_equal; ring |].
    replace (a * (a * d - b * b)) with (- (a * (- (a * d - b * b)))) by ring.
    assert (0 < a * (- (a * d - b * b))) by (apply Rmult_lt_0_compat; lra).
    lra.
Qed.

(** ** [lerp_matrix] on binary64 numbers *)

Lemma fvec_add_inv (u v w : list Binary64.f64) :
  Binary64.fvec_add u v = Ok w ->
  length w = length u /\
  forall j, nth_error w j =
            match nth_error u j, nth_error v j with
            | Some a, Some b => Some (PrimFloat.add a b)
            | _, _ => None
            end.
Proof.
  revert v w. induction u as [| a u IH]; intros [| b v] w H; cbn in H; try discriminate.
  - injection H as <-. split; [reflexivity |]. intros [| j]; reflexivity.
  - destruct (Binary64.fvec_add u v) as [w' |] eqn:E; cbn in H; [| discriminate].
    injection H as <-. destruct (IH v w' E) as (L & N).
    split; [cbn; congruence |]. intros [| j]; [reflexivity | apply N].
Qed.

Lemma fvec_add_ok (u v : list Binary64.f64) :
  length u = length v -> exists w, Binary64.fvec_add u v = Ok w.
Proof.
  revert v. induction u as [| a u IH]; intros [| b v] H; try discriminate.
  - exists []. reflexivity.
  - destruct (IH v) as [w E]; [cbn in H; lia |].
    eexists. cbn. rewrite E. reflexivity.
Qed.

Lemma fmat_add_inv (A B M : Binary64.fmatrix) :
  Binary64.fmat_add A B = Ok M ->
  Binary64.fsame_shape M A /\
  forall i j, Binary64.fentry M i j =
              match Binary64.fentry A i j, Binary64.fentry B i j with
              | Some a, Some b => Some (PrimFloat.add a b)
              | _, _ => None
              end.
Proof.
  unfold Binary64.fsame_shape, Binary64.fentry.
  revert B M. induction A as [| r A IH]; intros [| s B] M H; cbn in H; try discriminate.
  - injection H as <-. split; [reflexivity |]. intros [| i] j; reflexivity.
  - destruct (Binary64.fvec_add r s) as [t |] eqn:Et; cbn in H; [| discriminate].
    destruct (Binary64.fmat_add A B) as [M' |] eqn:Em; cbn in H; [| discriminate].
    injection H as <-.
    destruct (fvec_add_inv r s t Et) as (L & N).
    destruct (IH B M' Em) as (S & E).
    split; [cbn; congruence |].
    intros [| i] j; cbn [nth_error]; [apply N | apply E].
Qed.

Lemma fmat_add_ok (A B : Binary64.fmatrix) :
  Binary64.fsame_shape A B -> exists M, Binary64.fmat_add A B = Ok M.
Proof.
  unfold Binary64.fsame_shape.
  revert B. induction A as [| r A IH]; intros [| s B] H; try discriminate.
  - exists []. reflexivity.
  - cbn in H. injection H as Hl Hs.
    destruct (fvec_add_ok r s Hl) as [t Et]. destruct (IH B Hs) as [M Em].
    eexists. cbn. rewrite Et, Em. reflexivity.
Qed.

Lemma fmat_scale_shape (c : Binary64.f64) (A : Binary64.fmatrix) :
  Binary64.fsame_shape (Binary64.fmat_scale c A) A.
Proof.
  unfold Binary64.fsame_shape, Binary64.fmat_scale. rewrite map_map.
  apply map_ext. intros r. apply length_map.
Qed.

Lemma fmat_scale_entry (c : Binary64.f64) (A : Binary64.fmatrix) (i j : nat) :
  Binary64.fentry (Binary64.fmat_scale c A) i j =
  option_map (PrimFloat.mul c) (Binary64.fentry A i j).
Proof.
  unfold Binary64.fentry, Binary64.fmat_scale. revert i.
  induction A as [| r A IH]; intros [| i]; cbn [map nth_error]; try reflexivity.
  - apply nth_error_map.
  - apply IH.
Qed.

Lemma lerp_matrix_binary64 (Qa Qb : Binary64.fmatrix) (alpha : Binary64.f64) :
  Binary64.fsame_shape Qa Qb ->
  exists M,
    Binary64.lerp_matrix Qa Qb alpha = Ok M /\
    Binary64.fsame_shape M Qa /\
    forall i j,
      Binary64.fentry M i j =
      match Binary64.fentry Qa i j, Binary64.fentry Qb i j with
      | Some a, Some b => Some (Binary64.blend alpha a b)
      | _, _ => None
      end.
Proof.
  intros S. unfold Binary64.lerp_matrix.
  pose proof (fmat_scale_shape (PrimFloat.sub PrimFloat.one alpha) Qa) as Sa.
  pose proof (fmat_scale_shape alpha Qb) as Sb.
  unfold Binary64.fsame_shape in *.
  destruct (fmat_add_ok (Binary64.fmat_scale (PrimFloat.sub PrimFloat.one alpha) Qa)
                        (Binary64.fmat_scale alpha Qb)) as [M E].
  { unfold Binary64.fsame_shape. congruence. }
  exists M. split; [exact E |].
  destruct (fmat_add_inv _ _ _ E) as (S1 & N).
  split; [unfold Binary64.fsame_shape in *; congruence |].
  intros i j. rewrite N, !fmat_scale_entry.
  destruct (Binary64.fentry Qa i j), (Binary64.fentry Qb i j); reflexivity.
Qed.

(** The three matrices of the blend that rounding makes indefinite, with
    [e = 2^-52]: [[1+e, 1+e], [1+e, 1+2e]], [[1+e, 1+2e], [1+2e, 1+4e]] and,
    for the factor one half, [[1+e, 1+2e], [1+2e, 1+3e]], the entry
    [1 + 1.5 e] off the diagonal being rounded to [1 + 2 e]. *)
Lemma lerp_matrix_binary64_rounding :
  Binary64.lerp_matrix
    [[Binary64.of_bits 4503599627370497 (-52); Binary64.of_bits 4503599627370497 (-52)];
     [Binary64.of_bits 4503599627370497 (-52); Binary64.of_bits 4503599627370498 (-52)]]
    [[Binary64.of_bits 4503599627370497 (-52); Binary64.of_bits 4503599627370498 (-52)];
     [Binary64.of_bits 4503599627370498 (-52); Binary64.of_bits 4503599627370500 (-52)]]
    (Binary64.of_bits 1 (-1)) =
  Ok [[Binary64.of_bits 4503599627370497 (-52); Binary64.of_bits 4503599627370498 (-52)];
      [Binary64.of_bits 4503599627370498 (-52); Binary64.of_bits 4503599627370499 (-52)]].
Proof. vm_compute. reflexivity. Qed.

Lemma real_matrix_2x2 (m11 m12 m21 m22 : positive) :
  Binary64.matrix_values
    [[Binary64.of_bits m11 (-52); Binary64.of_bits m12 (-52)];
     [Binary64.of_bits m21 (-52); Binary64.of_bits m22 (-52)]] =
  Some [[QArith_base.Qmake (Zpos m11) 4503599627370496;
         QArith_base.Qmake (Zpos m12) 4503599627370496];
        [QArith_base.Qmake (Zpos m21) 4503599627370496;
         QArith_base.Qmake (Zpos m22) 4503599627370496]] ->
  Binary64.real_matrix
    [[Binary64.of_bits m11 (-52); Binary64.of_bits m12 (-52)];
     [Binary64.of_bits m21 (-52); Binary64.of_bits m22 (-52)]] =
  Some [[Q2R (QArith_base.Qmake (Zpos m11) 4503599627370496);
         Q2R (QArith_base.Qmake (Zpos m12) 4503599627370496)];
        [Q2R (QArith_base.Qmake (Zpos m21) 4503599627370496);
         Q2R (QArith_base.Qmake (Zpos m22) 4503599627370496)]].
Proof.
  intros V. unfold Binary64.real_matrix. rewrite V. reflexivity.
Qed.

(** C5.  [lerp_matrix] returns [(1 - alpha) Qa + alpha Qb] entry by entry,
    in exact arithmetic and, every operation rounded, on binary64 numbers;
    the blend of two symmetric matrices is symmetric in both; and
    positive-definiteness is not kept at intermediate factors: there are two
    symmetric positive-definite matrices of binary64 numbers whose blend by
    the factor one half, as [lerp_matrix] computes it, is indefinite. *)
Theorem lerp_matrix_spec :
  (forall (Qa Qb : matrix) (alpha : R),
     same_shape Qa Qb ->
     exists M,
       Helpers.lerp_matrix Qa Qb alpha = Ok M /\
       same_shape M Qa /\
       (forall i j, entry M i j = (1 - alpha) * entry Qa i j + alpha * entry Qb i j) /\
       (symmetric Qa -> symmetric Qb -> symmetric M)) /\
  (forall (Qa Qb : Binary64.fmatrix) (alpha : Binary64.f64),
     Binary64.fsame_shape Qa Qb ->
     exists M,
       Binary64.lerp_matrix Qa Qb alpha = Ok M /\
       Binary64.fsame_shape M Qa /\
       (forall i j,
          Binary64.fentry M i j =
          match Binary64.fentry Qa i j, Binary64.fentry Qb i j with
          | Some a, Some b => Some (Binary64.blend alpha a b)
          | _, _ => None
          end) /\
       (Binary64.fsymmetric Qa -> Binary64.fsymmetric Qb -> Binary64.fsymmetric M)) /\
  (exists (Qa Qb : Binary64.fmatrix) (alpha : Binary64.f64) (M : Binary64.fmatrix)
          (Ra Rb Rm : matrix) (a : R),
     Binary64.real_matrix Qa = Some Ra /\ symmetric Ra /\ pos_def Ra /\
     Binary64.real_matrix Qb = Some Rb /\ symmetric Rb /\ pos_def Rb /\
     Binary64.real_value alpha = Some a /\ 0 < a < 1 /\
     Binary64.lerp_matrix Qa Qb alpha = Ok M /\
     Binary64.real_matrix M = Some Rm /\ symmetric Rm /\ indefinite Rm).
Proof.
  split; [| split].
  - intros Qa Qb alpha S.
    destruct (lerp_matrix_ok Qa Qb alpha S) as [M E].
    destruct (lerp_matrix_inv _ _ _ _ E) as (S1 & _ & N).
    exists M.
    split; [exact E |]. split; [exact S1 |]. split; [exact N |].
    apply (lerp_matrix_symmetric Qa Qb M alpha E).
  - intros Qa Qb alpha S.
    destruct (lerp_matrix_binary64 Qa Qb alpha S) as (M & E & S1 & N).
    exists M.
    split; [exact E |]. split; [exact S1 |]. split; [exact N |].
    intros Ha Hb i j. rewrite !N, (Ha i j), (Hb i j). reflexivity.
  - eexists. eexists. eexists. eexists. eexists. eexists. eexists. eexists.
    split; [apply (real_matrix_2x2 4503599627370497 4503599627370497
                     4503599627370497 4503599627370498); vm_compute; reflexivity |].
    split; [apply symmetric_2x2 |].
    split; [apply pos_def_2x2; lra |].
    split; [apply (real_matrix_2x2 4503599627370497 4503599627370498
                     4503599627370498 4503599627370500); vm_compute; reflexivity |].
    split; [apply symmetric_2x2 |].
    split; [apply pos_def_2x2; lra |].
    split; [unfold Binary64.real_value;
            replace (Binary64.value (Binary64.of_bits 1 (-1)))
              with (Some (QArith_base.Qmake 4503599627370496 9007199254740992))
              by (vm_compute; reflexivity);
            reflexivity |].
    split; [lra |].
    split; [apply lerp_matrix_binary64_rounding |].
    split; [apply (real_matrix_2x2 4503599627370497 4503599627370498
                     4503599627370498 4503599627370499); vm_compute; reflexivity |].
    split; [apply symmetric_2x2 |].
    apply indefinite_2x2; lra.
Qed.

Lemma lerp_matrix_spec_witness :
  exists M,
    Binary64.lerp_matrix
      [[PrimFloat.one; PrimFloat.zero]; [PrimFloat.zero; PrimFloat.one]]
      [[PrimFloat.two; PrimFloat.one]; [PrimFloat.one; PrimFloat.two]]
      (Binary64.of_bits 1 (-1)) = Ok M /\
    Binary64.fsymmetric M.
Proof.
  destruct (proj1 (proj2 lerp_matrix_spec)
              [[PrimFloat.one; PrimFloat.zero]; [PrimFloat.zero; PrimFloat.one]]
              [[PrimFloat.two; PrimFloat.one]; [PrimFloat.one; PrimFloat.two]]
              (Binary64.of_bits 1 (-1)) eq_refl) as (M & E & _ & _ & Sy).
  exists M. split; [exact E |]. apply Sy.
  - intros i j. unfold Binary64.fentry.
    do 3 (try destruct i as [| i]); do 3 (try destruct j as [| j]); reflexivity.
  - intros i j. unfold Binary64.fentry.
    do 3 (try destruct i as [| i]); do 3 (try destruct j as [| j]); reflexivity.
Defined.

(** The blend of the two real matrices of the same numbers, computed
    exactly, is positive-definite: the indefinite blend comes from the
    rounding of one entry. *)
Example lerp_matrix_exact_blend_pos_def :
  exists M,
    Helpers.lerp_matrix
      [[Q2R (QArith_base.Qmake 4503599627370497 4503599627370496);
        Q2R (QArith_base.Qmake 4503599627370497 4503599627370496)];
       [Q2R (QArith_base.Qmake 4503599627370497 4503599627370496);
        Q2R (QArith_base.Qmake 4503599627370498 4503599627370496)]]
      [[Q2R (QArith_base.Qmake 4503599627370497 4503599627370496);
        Q2R (QArith_base.Qmake 4503599627370498 4503599627370496)];
       [Q2R (QArith_base.Qmake 4503599627370498 4503599627370496);
        Q2R (QArith_base.Qmake 4503599627370500 4503599627370496)]]
      (1 / 2) = Ok M /\ pos_def M.
Proof.
  match goal with
  | |- exists M, Helpers.lerp_matrix ?A ?B ?al = Ok M /\ _ =>
      destruct (lerp_matrix_ok A B al eq_refl) as [M E];
      exists M; split; [exact E |];
      apply (lerp_matrix_pos_def A B M al E)
  end.
  - lra.
  - apply pos_def_2x2; lra.
  - apply pos_def_2x2; lra.
Qed.

(** C8.  At the factor 0 the blend of two paths is the first path and at 1
    the second, at every parameter; at 0 the blend of two matrices of one
    shape is the first matrix and at 1 the second. *)
Theorem lerp_endpoints :
  (forall (path_a path_b : R -> vec3) (t : R),
     Helpers.lerp_path path_a path_b 0 t = path_a t /\
     Helpers.lerp_path path_a path_b 1 t = path_b t) /\
  (forall Qa Qb : matrix,
     same_shape Qa Qb ->
     Helpers.lerp_matrix Qa Qb 0 = Ok Qa /\ Helpers.lerp_matrix Qa Qb 1 = Ok Qb).
Proof.
  split.
  - intros path_a path_b t. split; [apply lerp_path_at_0 | apply lerp_path_at_1].
  - intros Qa Qb S. split; [apply lerp_matrix_at_0 | apply lerp_matrix_at_1]; exact S.
Qed.

Lemma lerp_endpoints_witness :
  Helpers.lerp_matrix [[4; 1]; [1; 2]] [[1; 0]; [0; 1]] 0 = Ok [[4; 1]; [1; 2]] /\
  Helpers.lerp_matrix [[4; 1]; [1; 2]] [[1; 0]; [0; 1]] 1 = Ok [[1; 0]; [0; 1]].
Proof.
  exact (proj2 lerp_endpoints [[4; 1]; [1; 2]] [[1; 0]; [0; 1]] eq_refl).
Defined.

(** ** Projected energy *)

Lemma matvec_n_by_2 (P : matrix) (c s : R) :
  n_by_2 P -> matvec P [c; s] = Ok (map (fun r => dot_raw r [c; s]) P).
Proof.
  intros H. unfold matvec.
  rewrite (proj2 (forallb_forall _ P)); [reflexivity |].
  intros r Hr.
  unfold n_by_2 in H. rewrite Forall_forall in H. rewrite (H r Hr). reflexivity.
Qed.

Lemma energy_sum (P : matrix) (c s : R) :
  n_by_2 P ->
  np_sum (np_square (map (fun r => dot_raw r [c; s]) P)) =
  Sigma (length P) (fun i => (entry P i 0 * c + entry P i 1 * s) ^ 2).
Proof.
  induction 1 as [| r P Hr HP IH].
  - reflexivity.
  - destruct r as [| a [| b [| z r]]]; try discriminate.
    cbn [map np_square length]. rewrite np_sum_cons, Sigma_shift.
    unfold np_square in IH. rewrite IH.
    unfold entry. cbn [nth dot_raw]. f_equal. ring.
Qed.

Lemma norms_sum (P : matrix) :
  n_by_2 P -> np_sum (np_square (row_norms P)) = sum_sq_norms P.
Proof.
  unfold sum_sq_norms.
  induction 1 as [| r P Hr HP IH].
  - reflexivity.
  - destruct r as [| a [| b [| z r]]]; try discriminate.
    change (np_square (row_norms ([a; b] :: P)))
      with (sqrt (np_sum (np_square [a; b])) ^ 2 :: np_square (row_norms P)).
    cbn [length]. rewrite np_sum_cons, Sigma_shift, IH.
    unfold entry. cbn [nth]. f_equal.
    rewrite pow2_sqrt.
    + unfold np_sum. cbn. ring.
    + unfold np_sum. cbn. nra.
Qed.

Lemma sum_sq_norms_nonneg (P : matrix) : 0 <= sum_sq_norms P.
Proof.
  apply Sigma_nonneg. intros i _.
  apply Rplus_le_le_0_compat; apply pow2_ge_0.
Qed.

Lemma projected_energy_nonneg (P : matrix) (theta : R) : 0 <= projected_energy P theta.
Proof.
  apply Sigma_nonneg. intros i _. apply pow2_ge_0.
Qed.

Lemma update_energy_ok (P : matrix) (theta : R) :
  n_by_2 P -> Pod2D.update_energy P theta = Ok (projected_energy P theta).
Proof.
  intros H. unfold Pod2D.update_energy. cbv zeta.
  rewrite matvec_n_by_2 by exact H. cbn [bind].
  rewrite energy_sum by exact H. reflexivity.
Qed.

Lemma total_energy_pos (P : matrix) :
  n_by_2 P ->
  BaseScenes.total_energy P = sum_sq_norms P + 1e-6 /\ 0 < BaseScenes.total_energy P.
Proof.
  intros H. unfold BaseScenes.total_energy. rewrite norms_sum by exact H.
  split; [reflexivity |]. pose proof (sum_sq_norms_nonneg P). lra.
Qed.

Lemma energy_ratio_ok (P : matrix) (theta : R) :
  n_by_2 P ->
  BaseScenes.energy_ratio P theta =
  Ok (clip (projected_energy P theta / (sum_sq_norms P + 1e-6)) 0.0 1.0).
Proof.
  intros H. unfold BaseScenes.energy_ratio. cbv zeta.
  rewrite matvec_n_by_2 by exact H. cbn [bind].
  rewrite energy_sum by exact H.
  destruct (total_energy_pos P H) as [E Hpos].
  rewrite div_ok by lra. cbn [bind]. rewrite E. reflexivity.
Qed.

(** C2.  For an N x 2 point set [P] and any angle [theta], in or out of
    [[0, 2 pi)], the energy computed by [update_energy], and the one inside
    [energy_ratio], is the sum over the points of the squared product with
    [[cos theta, sin theta]]; whole turns added to or taken from the angle do
    not change it; for the empty point set it is 0. *)
Theorem projected_energy_spec (P : matrix) (theta : R) :
  n_by_2 P ->
  Pod2D.update_energy P theta = Ok (projected_energy P theta) /\
  BaseScenes.energy_ratio P theta =
    (q <- div (projected_energy P theta) (BaseScenes.total_energy P) ;;
     Ok (clip q 0.0 1.0)) /\
  (forall k : nat,
     Pod2D.update_energy P (theta + 2 * INR k * PI) = Pod2D.update_energy P theta /\
     Pod2D.update_energy P (theta - 2 * INR k * PI) = Pod2D.update_energy P theta) /\
  Pod2D.update_energy [] theta = Ok 0.
Proof.
  intros H. split; [apply update_energy_ok; exact H |]. split.
  - unfold BaseScenes.energy_ratio. cbv zeta.
    rewrite matvec_n_by_2 by exact H. cbn [bind].
    rewrite energy_sum by exact H. reflexivity.
  - split.
    + intros k. unfold Pod2D.update_energy. cbv zeta. split.
      * rewrite cos_period, sin_period. reflexivity.
      * rewrite <- (cos_period (theta - 2 * INR k * PI) k).
        rewrite <- (sin_period (theta - 2 * INR k * PI) k).
        replace (theta - 2 * INR k * PI + 2 * INR k * PI) with theta by ring.
        reflexivity.
    + reflexivity.
Qed.

Lemma projected_energy_spec_witness :
  Pod2D.update_energy [[1; 0]; [0; 2]] 0 = Ok (projected_energy [[1; 0]; [0; 2]] 0).
Proof.
  refine (proj1 (projected_energy_spec [[1; 0]; [0; 2]] 0 _)).
  repeat constructor.
Defined.

(** Two points on the axes, looked at along the first axis: only the first
    point counts. *)
Example projected_energy_axes : projected_energy [[1; 0]; [0; 2]] 0 = 1.
Proof.
  unfold projected_energy, entry. cbn. rewrite cos_0, sin_0. ring.
Qed.

Lemma build_energy_meter_n_by_2 (P : matrix) (theta : R) :
  n_by_2 P ->
  BaseScenes.build_energy_meter (Array2 2 P) theta =
  Ok (clip (projected_energy P theta / (sum_sq_norms P + 1e-6)) 0.0 1.0).
Proof.
  intros H. unfold BaseScenes.build_energy_meter. cbn [nd_norm_axis1 nd_matvec bind length].
  cbv zeta. cbn [Nat.eqb bind].
  rewrite energy_sum by exact H.
  destruct (total_energy_pos P H) as [E Hpos]. unfold BaseScenes.total_energy in E, Hpos.
  rewrite div_ok by lra. cbn [bind]. rewrite E. reflexivity.
Qed.

(** C3, where it fails: the empty point set as Python writes it.
    [np.array([])] (what [_create_point_cloud] returns for no sample, and
    what [np.asarray([])] is) has one dimension, and the norm along axis 1
    taken when the meter is built is refused. *)
Lemma build_energy_meter_empty_1d :
  np_array [] = Array1 [] /\
  BaseScenes.build_energy_meter (np_array []) 0 = Raise AxisError /\
  ~ (exists ratio, BaseScenes.build_energy_meter (np_array []) 0 = Ok ratio).
Proof.
  split; [reflexivity |]. split; [reflexivity |].
  intros [ratio E]. discriminate E.
Qed.

(** C3 (amended).  For a two-dimensional N x 2 point array, the one without
    rows (shape (0, 2)) and the all-zero ones included, and any angle, the
    energy ratio meets no error: it returns the projected energy divided by
    the sum of the squared norms plus 1e-6, clamped to [[0, 1]], and that
    number lies in [[0, 1]]. *)
Theorem build_energy_meter_spec (P : matrix) (theta : R) :
  n_by_2 P ->
  exists ratio,
    BaseScenes.build_energy_meter (Array2 2 P) theta = Ok ratio /\
    ratio = clip (projected_energy P theta / (sum_sq_norms P + 1e-6)) 0.0 1.0 /\
    0 <= ratio <= 1.
Proof.
  intros H. eexists. split; [apply build_energy_meter_n_by_2; exact H |].
  split; [reflexivity | apply clip_range].
Qed.

Lemma build_energy_meter_spec_witness :
  (exists ratio,
     BaseScenes.build_energy_meter (Array2 2 []) 0 = Ok ratio /\ 0 <= ratio <= 1) /\
  (exists ratio,
     BaseScenes.build_energy_meter (Array2 2 [[0; 0]; [3; 4]]) 0 = Ok ratio /\
     0 <= ratio <= 1).
Proof.
  split.
  - destruct (build_energy_meter_spec [] 0 (Forall_nil _)) as (ratio & E & _ & B).
    exists ratio. split; [exact E | exact B].
  - assert (H : n_by_2 [[0; 0]; [3; 4]]) by (repeat constructor).
    destruct (build_energy_meter_spec [[0; 0]; [3; 4]] 0 H) as (ratio & E & _ & B).
    exists ratio. split; [exact E | exact B].
Defined.

(** The point array without rows (shape (0, 2)) and a set of zero points give
    the ratio 0. *)
Example energy_ratio_degenerate (theta : R) :
  BaseScenes.energy_ratio [] theta = Ok 0 /\
  BaseScenes.energy_ratio [[0; 0]; [0; 0]] theta = Ok 0.
Proof.
  split.
  - rewrite energy_ratio_ok by constructor.
    unfold projected_energy, sum_sq_norms. cbn. f_equal.
    apply clip_below. lra.
  - rewrite energy_ratio_ok by (repeat constructor).
    unfold projected_energy, sum_sq_norms, entry. cbn. f_equal.
    apply clip_below. right. unfold Rdiv. ring.
Qed.

(** ** [create_pod_covariance_matrix] *)

Lemma mat2_eq (a b c d a' b' c' d' : R) :
  a = a' -> b = b' -> c = c' -> d = d' ->
  @Ok matrix [[a; b]; [c; d]] = Ok [[a'; b']; [c'; d']].
Proof. intros -> -> -> ->. reflexivity. Qed.

Lemma create_pod_covariance_matrix_value (theta l1 l2 : R) :
  Geometry.create_pod_covariance_matrix theta l1 l2 =
  Ok [[cos theta * cos theta * l1 + sin theta * sin theta * l2;
       cos theta * sin theta * (l1 - l2)];
      [cos theta * sin theta * (l1 - l2);
       sin theta * sin theta * l1 + cos theta * cos theta * l2]].
Proof.
  unfold Geometry.create_pod_covariance_matrix. cbn.
  apply mat2_eq; ring.
Qed.

Lemma quad_form_2x2 (a b c d x y : R) :
  quad_form [x; y] [[a; b]; [c; d]] = Ok ((x * a + y * c) * x + (x * b + y * d) * y).
Proof.
  cbn. f_equal. ring.
Qed.

(** C4.  [create_pod_covariance_matrix] returns the two-by-two matrix
    [R(theta) . diag(l1, l2) . R(theta)^T], [R] the rotation of the plane;
    that matrix is symmetric, and positive-semi-definite when [l1] and [l2]
    are not negative. *)
Theorem create_pod_covariance_matrix_spec (theta lambda1 lambda2 : R) :
  exists C,
    Geometry.create_pod_covariance_matrix theta lambda1 lambda2 = Ok C /\
    is_square 2 C /\
    (forall i j, entry C i j = rot_diag_rot theta lambda1 lambda2 i j) /\
    symmetric C /\
    (0 <= lambda1 -> 0 <= lambda2 -> pos_semidef C).
Proof.
  eexists. split; [apply create_pod_covariance_matrix_value |].
  assert (Sq : is_square 2
            [[cos theta * cos theta * lambda1 + sin theta * sin theta * lambda2;
              cos theta * sin theta * (lambda1 - lambda2)];
             [cos theta * sin theta * (lambda1 - lambda2);
              sin theta * sin theta * lambda1 + cos theta * cos theta * lambda2]])
    by (split; [reflexivity | repeat constructor]).
  split; [exact Sq |]. split; [| split].
  - intros i j. unfold entry, rot_diag_rot, rotation.
    do 3 (try destruct i as [| i]); do 3 (try destruct j as [| j]); cbn; ring.
  - split; [exact Sq |].
    intros i j. unfold entry.
    do 3 (try destruct i as [| i]); do 3 (try destruct j as [| j]); reflexivity.
  - intros H1 H2 v Hl.
    destruct v as [| x [| y [| z v]]]; try discriminate.
    rewrite quad_form_2x2. eexists. split; [reflexivity |].
    set (c := cos theta). set (s := sin theta).
    replace ((x * (c * c * lambda1 + s * s * lambda2) + y * (c * s * (lambda1 - lambda2))) * x
             + (x * (c * s * (lambda1 - lambda2)) + y * (s * s * lambda1 + c * c * lambda2)) * y)
      with (lambda1 * ((c * x + s * y) * (c * x + s * y))
            + lambda2 * ((c * y - s * x) * (c * y - s * x))) by ring.
    pose proof (Rle_0_sqr (c * x + s * y)) as Q1.
    pose proof (Rle_0_sqr (c * y - s * x)) as Q2.
    unfold Rsqr in Q1, Q2.
    apply Rplus_le_le_0_compat; apply Rmult_le_pos; assumption.
Qed.

Lemma create_pod_covariance_matrix_spec_witness :
  exists C,
    Geometry.create_pod_covariance_matrix (PI / 4) 4.0 1.0 = Ok C /\ pos_semidef C.
Proof.
  destruct (create_pod_covariance_matrix_spec (PI / 4) 4.0 1.0)
    as (C & E & _ & _ & _ & P).
  exists C. split; [exact E | apply P; lra].
Defined.

(** With [theta = 0] the matrix is [diag(l1, l2)]. *)
Example create_pod_covariance_matrix_axis (l1 l2 : R) :
  Geometry.create_pod_covariance_matrix 0 l1 l2 = Ok [[l1; 0]; [0; l2]].
Proof.
  rewrite create_pod_covariance_matrix_value, cos_0, sin_0.
  apply mat2_eq; ring.
Qed.

(** ** [np.argsort] and the reordering of the eigenvalues *)

Section ArgsortFacts.
Context {K : Type}.
Variable leb : K -> K -> bool.
Variable d : K.
Hypothesis leb_total : forall x y, leb x y = true \/ leb y x = true.

Lemma insert_index_perm (a : list K) (i : nat) (l : list nat) :
  Permutation (insert_index leb d a i l) (i :: l).
Proof.
  induction l as [| j l IH]; cbn.
  - apply Permutation_refl.
  - destruct (leb (nth i a d) (nth j a d)).
    + apply Permutation_refl.
    + apply perm_trans with (j :: i :: l); [| apply perm_swap].
      apply perm_skip. exact IH.
Qed.

Lemma insert_index_hd (a : list K) (i j : nat) (l : list nat) :
  key_le leb d a j i ->
  HdRel (key_le leb d a) j l -> HdRel (key_le leb d a) j (insert_index leb d a i l).
Proof.
  intros Hji Hl. destruct l as [| k l]; cbn.
  - constructor. exact Hji.
  - destruct (leb (nth i a d) (nth k a d)).
    + constructor. exact Hji.
    + constructor. inversion Hl; assumption.
Qed.

Lemma insert_index_sorted (a : list K) (i : nat) (l : list nat) :
  Sorted (key_le leb d a) l -> Sorted (key_le leb d a) (insert_index leb d a i l).
Proof.
  induction 1 as [| j l Hs IH Hh]; cbn.
  - repeat constructor.
  - destruct (leb (nth i a d) (nth j a d)) eqn:E.
    + constructor; [constructor; assumption | constructor; exact E].
    + constructor; [exact IH |].
      apply insert_index_hd; [| exact Hh].
      destruct (leb_total (nth i a d) (nth j a d)) as [T | T]; [congruence | exact T].
Qed.

Lemma argsort_by_perm (a : list K) :
  Permutation (argsort_by leb d a) (seq 0 (length a)).
Proof.
  unfold argsort_by. induction (seq 0 (length a)) as [| i l IH]; cbn.
  - apply Permutation_refl.
  - eapply perm_trans; [apply insert_index_perm |]. apply perm_skip. exact IH.
Qed.

Lemma argsort_by_sorted (a : list K) :
  Sorted (key_le leb d a) (argsort_by leb d a).
Proof.
  unfold argsort_by. induction (seq 0 (length a)) as [| i l IH]; cbn.
  - constructor.
  - apply insert_index_sorted. exact IH.
Qed.

End ArgsortFacts.

(** The sort run on integers: the indices of 1, 2, 3, 3 in [[3; 1; 3; 2]],
    the two 3 in their order. *)
Example argsort_by_integers :
  argsort_by Z.leb 0%Z [3; 1; 3; 2]%Z = [1; 3; 0; 2]%nat.
Proof. reflexivity. Qed.

Lemma Rleb_le (x y : R) : Rleb x y = true <-> x <= y.
Proof.
  unfold Rleb. destruct (Rle_dec x y); split; intros; try assumption;
    try reflexivity; try discriminate; contradiction.
Qed.

Lemma Rleb_total (x y : R) : Rleb x y = true \/ Rleb y x = true.
Proof.
  rewrite !Rleb_le. destruct (Rle_dec x y); [left; assumption | right; lra].
Qed.

Lemma take_seq (a : vector) : take a (seq 0 (length a)) = a.
Proof.
  unfold take. apply (nth_ext _ _ 0 0).
  - rewrite length_map, length_seq. reflexivity.
  - intros i Hi. rewrite length_map, length_seq in Hi.
    apply (nth_map_seq (fun i => nth i a 0)). exact Hi.
Qed.

Lemma Sorted_map_key (a : vector) (l : list nat) :
  Sorted (key_le Rleb 0 a) l -> Sorted Rle (take a l).
Proof.
  induction 1 as [| i l Hs IH Hh]; cbn.
  - constructor.
  - constructor; [exact IH |].
    destruct Hh as [| j l Hij]; cbn; constructor. apply Rleb_le. exact Hij.
Qed.

Lemma StronglySorted_snoc (l : vector) (x : R) :
  StronglySorted Rge l -> Forall (fun y => y >= x) l -> StronglySorted Rge (l ++ [x]).
Proof.
  induction 1 as [| y l Hs IH Hall]; intros Hx; cbn.
  - repeat constructor.
  - inversion Hx as [| ? ? Hy Hl]; subst.
    constructor; [apply IH; exact Hl |].
    apply Forall_app. split; [exact Hall | constructor; [exact Hy | constructor]].
Qed.

Lemma StronglySorted_rev (l : vector) :
  StronglySorted Rle l -> StronglySorted Rge (rev l).
Proof.
  induction 1 as [| x l Hs IH Hall]; cbn.
  - constructor.
  - apply StronglySorted_snoc; [exact IH |].
    apply Forall_rev. revert Hall. apply Forall_impl. intros y Hy. lra.
Qed.

Lemma StronglySorted_nth (l : vector) :
  StronglySorted Rge l ->
  forall i j, (i <= j < length l)%nat -> nth j l 0 <= nth i l 0.
Proof.
  induction 1 as [| x l Hs IH Hall]; intros i j Hij; cbn in Hij; [lia |].
  destruct i as [| i], j as [| j]; cbn; try lia.
  - lra.
  - rewrite Forall_forall in Hall.
    assert (x >= nth j l 0) by (apply Hall, nth_In; lia). lra.
  - apply IH. lia.
Qed.

Lemma Rle_transitive : Relations_1.Transitive Rle.
Proof. intros x y z. apply Rle_trans. Qed.

(** The eigenvalues taken at the reversed [argsort] are in descending order
    and are the same eigenvalues. *)
Lemma reorder_descending (eigvals : vector) :
  StronglySorted Rge (take eigvals (rev (argsort eigvals))) /\
  Permutation (take eigvals (rev (argsort eigvals))) eigvals.
Proof.
  split.
  - unfold take. rewrite map_rev. apply StronglySorted_rev.
    apply Sorted_StronglySorted; [exact Rle_transitive |].
    apply Sorted_map_key. apply (argsort_by_sorted Rleb 0 Rleb_total).
  - rewrite <- (take_seq eigvals) at 3. unfold take.
    apply Permutation_map.
    eapply perm_trans; [apply Permutation_sym, Permutation_rev |].
    apply argsort_by_perm.
Qed.

Lemma take_cols_col (A : matrix) (order : list nat) (k : nat) :
  (k < length order)%nat ->
  col k (take_cols A order) = col (nth k order 0%nat) A.
Proof.
  intros Hk. unfold col, take_cols. rewrite map_map.
  apply map_ext. intros r. unfold take.
  rewrite (nth_indep _ 0 ((fun i => nth i r 0) 0%nat)) by (rewrite length_map; exact Hk).
  apply (map_nth (fun i => nth i r 0)).
Qed.

(** C1.  Whatever [eigh] returns for the covariance matrix, after the
    reordering by the reversed [argsort] the eigenvalues are in descending
    order (three of them: [l1 >= l2 >= l3]); they are the eigenvalues that
    [eigh] returned, and the columns of eigenvectors are reordered by the
    same indices. *)
Theorem pod_modes_descending (eigh : matrix -> vector * matrix) (cov : matrix) :
  let eigvals := fst (eigh cov) in
  let eigvecs := snd (eigh cov) in
  let eigvals' := fst (Pod3D.pod_modes eigh cov) in
  let eigvecs' := snd (Pod3D.pod_modes eigh cov) in
  length eigvals' = length eigvals /\
  descending eigvals' /\
  (forall i j, (i <= j < length eigvals')%nat -> nth j eigvals' 0 <= nth i eigvals' 0) /\
  (forall l1 l2 l3, eigvals' = [l1; l2; l3] -> l1 >= l2 /\ l2 >= l3) /\
  Permutation eigvals' eigvals /\
  exists order,
    Permutation order (seq 0 (length eigvals)) /\
    eigvals' = take eigvals order /\
    eigvecs' = take_cols eigvecs order /\
    forall k, (k < length order)%nat ->
      nth k eigvals' 0 = nth (nth k order 0%nat) eigvals 0 /\
      col k eigvecs' = col (nth k order 0%nat) eigvecs.
Proof.
  unfold Pod3D.pod_modes. destruct (eigh cov) as [eigvals eigvecs]. cbn.
  destruct (reorder_descending eigvals) as [Hs Hp].
  pose proof (StronglySorted_nth _ Hs) as Hn.
  split; [apply Permutation_length; exact Hp |].
  split; [apply StronglySorted_Sorted; exact Hs |].
  split; [exact Hn |].
  split.
  - intros l1 l2 l3 E. rewrite E in Hn.
    pose proof (Hn 0%nat 1%nat ltac:(cbn; lia)) as H01.
    pose proof (Hn 1%nat 2%nat ltac:(cbn; lia)) as H12.
    cbn in H01, H12. lra.
  - split; [exact Hp |].
    exists (rev (argsort eigvals)).
    split.
    + eapply perm_trans; [apply Permutation_sym, Permutation_rev |].
      apply argsort_by_perm.
    + split; [reflexivity |]. split; [reflexivity |].
      intros k Hk. split.
      * unfold take.
        rewrite (nth_indep _ 0 ((fun i => nth i eigvals 0) 0%nat))
          by (rewrite length_map; exact Hk).
        apply (map_nth (fun i => nth i eigvals 0)).
      * apply take_cols_col. exact Hk.
Qed.

Lemma pod_modes_descending_witness :
  let eigvals' :=
    fst (Pod3D.pod_modes (fun _ => ([1; 3; 2], [[1; 0; 0]; [0; 1; 0]; [0; 0; 1]])) []) in
  nth 1 eigvals' 0 <= nth 0 eigvals' 0.
Proof.
  destruct (pod_modes_descending
              (fun _ => ([1; 3; 2], [[1; 0; 0]; [0; 1; 0]; [0; 0; 1]])) [])
    as (Hlen & _ & Hnth & _).
  cbv zeta. apply Hnth. rewrite Hlen. cbn. lia.
Defined.

(** Eigenvalues 1, 3, 2 with the unit vectors as eigenvectors: the values
    come back as 3, 2, 1 and the columns follow them. *)
Example pod_modes_132 :
  Pod3D.pod_modes (fun _ => ([1; 3; 2], [[1; 0; 0]; [0; 1; 0]; [0; 0; 1]])) [] =
  ([3; 2; 1], [[0; 0; 1]; [1; 0; 0]; [0; 1; 0]]).
Proof.
  unfold Pod3D.pod_modes, argsort, argsort_by. cbn [length seq fold_right insert_index nth].
  unfold Rleb.
  repeat (destruct (Rle_dec _ _); try lra; cbn [insert_index nth]).
  reflexivity.
Qed.

(** ** Derivatives

    The rules of differentiation of the Standard Library, stated on functions
    written with [fun]. *)

Lemma dpl_eq (f : R -> R) (x l l' : R) :
  derivable_pt_lim f x l -> l = l' -> derivable_pt_lim f x l'.
Proof. intros H <-. exact H. Qed.

Lemma dpl_const (c x : R) : derivable_pt_lim (fun _ => c) x 0.
Proof. apply derivable_pt_lim_const. Qed.

Lemma dpl_id (x : R) : derivable_pt_lim (fun t => t) x 1.
Proof. apply derivable_pt_lim_id. Qed.

Lemma dpl_plus (f g : R -> R) (x a b : R) :
  derivable_pt_lim f x a -> derivable_pt_lim g x b ->
  derivable_pt_lim (fun t => f t + g t) x (a + b).
Proof. apply derivable_pt_lim_plus. Qed.

Lemma dpl_minus (f g : R -> R) (x a b : R) :
  derivable_pt_lim f x a -> derivable_pt_lim g x b ->
  derivable_pt_lim (fun t => f t - g t) x (a - b).
Proof. apply derivable_pt_lim_minus. Qed.

Lemma dpl_opp (f : R -> R) (x a : R) :
  derivable_pt_lim f x a -> derivable_pt_lim (fun t => - f t) x (- a).
Proof. apply derivable_pt_lim_opp. Qed.

Lemma dpl_mult (f g : R -> R) (x a b : R) :
  derivable_pt_lim f x a -> derivable_pt_lim g x b ->
  derivable_pt_lim (fun t => f t * g t) x (a * g x + f x * b).
Proof. apply derivable_pt_lim_mult. Qed.

Lemma dpl_pow (f : R -> R) (n : nat) (x a : R) :
  derivable_pt_lim f x a ->
  derivable_pt_lim (fun t => f t ^ n) x (INR n * f x ^ pred n * a).
Proof.
  intros H.
  apply (derivable_pt_lim_comp f (fun y => y ^ n) x a (INR n * f x ^ pred n) H).
  apply derivable_pt_lim_pow.
Qed.

Lemma dpl_exp (f : R -> R) (x a : R) :
  derivable_pt_lim f x a -> derivable_pt_lim (fun t => exp (f t)) x (exp (f x) * a).
Proof.
  intros H. apply (derivable_pt_lim_comp f exp x a (exp (f x)) H).
  apply derivable_pt_lim_exp.
Qed.

Lemma dpl_sin (f : R -> R) (x a : R) :
  derivable_pt_lim f x a -> derivable_pt_lim (fun t => sin (f t)) x (cos (f x) * a).
Proof.
  intros H. apply (derivable_pt_lim_comp f sin x a (cos (f x)) H).
  apply derivable_pt_lim_sin.
Qed.

Lemma dpl_cos (f : R -> R) (x a : R) :
  derivable_pt_lim f x a -> derivable_pt_lim (fun t => cos (f t)) x (- sin (f x) * a).
Proof.
  intros H. apply (derivable_pt_lim_comp f cos x a (- sin (f x)) H).
  apply derivable_pt_lim_cos.
Qed.

(** Derivatives of expressions built from the rules above. *)
Ltac dpl :=
  unfold Rdiv;
  repeat first
    [ apply dpl_const | apply dpl_id
    | eapply dpl_pow | eapply dpl_exp | eapply dpl_sin | eapply dpl_cos
    | eapply dpl_plus | eapply dpl_minus | eapply dpl_opp | eapply dpl_mult ].


(** ** [gaussian_gradient] *)

(** With widths other than zero [gaussian_gradient] returns the gradient of
    the Gaussian of its docstring; a zero width is a division by zero. *)
Lemma gaussian_gradient_is_gradient (x y cx cy sigma_x sigma_y amplitude : R) :
  sigma_x <> 0 -> sigma_y <> 0 ->
  exists g,
    Helpers.gaussian_gradient x y (cx, cy) sigma_x sigma_y amplitude = Ok g /\
    gradient_at (gaussian cx cy sigma_x sigma_y amplitude) x y g.
Proof.
  intros Hx Hy.
  assert (Sx : sigma_x ^ 2 <> 0) by (apply pow_nonzero; exact Hx).
  assert (Sy : sigma_y ^ 2 <> 0) by (apply pow_nonzero; exact Hy).
  unfold Helpers.gaussian_gradient.
  rewrite !div_ok by lra. cbn [bind]. rewrite !div_ok by assumption. cbn [bind].
  eexists. split; [reflexivity |].
  replace (- ((x - cx) ^ 2 / (2 * sigma_x ^ 2) + (y - cy) ^ 2 / (2 * sigma_y ^ 2)))
    with (- (x - cx) ^ 2 / (2 * sigma_x ^ 2) - (y - cy) ^ 2 / (2 * sigma_y ^ 2))
    by (field; repeat split; assumption).
  unfold gradient_at, gaussian. split; [| split].
  - eapply dpl_eq; [dpl |]. cbn beta. cbn [pred INR]. unfold Rdiv.
    rewrite pow_1. field; repeat split; assumption.
  - eapply dpl_eq; [dpl |]. cbn beta. cbn [pred INR]. unfold Rdiv.
    rewrite pow_1. field; repeat split; assumption.
  - lra.
Qed.

Lemma gaussian_gradient_zero_width (x y cx cy sigma_y amplitude : R) :
  Helpers.gaussian_gradient x y (cx, cy) 0 sigma_y amplitude = Raise ZeroDivision.
Proof.
  unfold Helpers.gaussian_gradient. rewrite div_zero by (cbn; ring). reflexivity.
Qed.

(** ** [composite_gradient] *)

Lemma vec3_eq (a b c a' b' c' : R) :
  a = a' -> b = b' -> c = c' -> @Ok vec3 (a, b, c) = Ok (a', b', c').
Proof. intros -> -> ->. reflexivity. Qed.

Lemma composite_gradient_value (x y : R) :
  Helpers.composite_gradient x y =
  Ok (- (0.8 * exp (- x ^ 2 / (2 * 3 ^ 2) - y ^ 2 / (2 * 2 ^ 2))) * x / 9
      + 0.4 * 0.8 * cos (0.8 * x) * cos (0.6 * y),
      - (0.8 * exp (- x ^ 2 / (2 * 3 ^ 2) - y ^ 2 / (2 * 2 ^ 2))) * y / 4
      + - 0.4 * 0.6 * sin (0.8 * x) * sin (0.6 * y),
      0).
Proof.
  unfold Helpers.composite_gradient, Helpers.gaussian_gradient.
  rewrite !div_ok by (cbn; lra). cbn [bind].
  rewrite !div_ok by (cbn; lra). cbn [bind vec3_add].
  replace (- ((x - 0) ^ 2 / (2 * 3.0 ^ 2) + (y - 0) ^ 2 / (2 * 2.0 ^ 2)))
    with (- x ^ 2 / (2 * 3 ^ 2) - y ^ 2 / (2 * 2 ^ 2)) by (unlit; field).
  apply vec3_eq; unlit; field.
Qed.

(** ** The field and the rendered height: partial derivatives *)

Lemma landscape_field_dx (x y : R) :
  derivable_pt_lim (fun u => landscape_field u y) x
    (- (0.8 * exp (- x ^ 2 / (2 * 3 ^ 2) - y ^ 2 / (2 * 2 ^ 2))) * x / 9
     + 0.4 * 0.8 * cos (0.8 * x) * cos (0.6 * y)).
Proof.
  unfold landscape_field. eapply dpl_eq; [dpl |].
  cbn beta. cbn [pred INR pow]. unfold Rdiv. unlit. field.
Qed.

Lemma landscape_field_dy (x y : R) :
  derivable_pt_lim (fun v => landscape_field x v) y
    (- (0.8 * exp (- x ^ 2 / (2 * 3 ^ 2) - y ^ 2 / (2 * 2 ^ 2))) * y / 4
      + - 0.4 * 0.6 * sin (0.8 * x) * sin (0.6 * y)).
Proof.
  unfold landscape_field. eapply dpl_eq; [dpl |].
  cbn beta. cbn [pred INR pow]. unfold Rdiv. unlit. field.
Qed.

Lemma landscape_field_along (x y gx gy : R) :
  derivable_pt_lim (fun t => landscape_field (x + t * gx) (y + t * gy)) 0
    ((- (0.8 * exp (- x ^ 2 / (2 * 3 ^ 2) - y ^ 2 / (2 * 2 ^ 2))) * x / 9
      + 0.4 * 0.8 * cos (0.8 * x) * cos (0.6 * y)) * gx
     + (- (0.8 * exp (- x ^ 2 / (2 * 3 ^ 2) - y ^ 2 / (2 * 2 ^ 2))) * y / 4
        + - 0.4 * 0.6 * sin (0.8 * x) * sin (0.6 * y)) * gy).
Proof.
  unfold landscape_field. eapply dpl_eq; [dpl |].
  cbn beta. replace (x + 0 * gx) with x by ring. replace (y + 0 * gy) with y by ring.
  cbn [pred INR pow]. unfold Rdiv. unlit. field.
Qed.

Lemma surface_height_du (u v : R) :
  derivable_pt_lim (fun s => surface_height s v) u
    (0.8 * exp (- (u ^ 2 / 9 + v ^ 2 / 4)) * (- (2 * u / 9))
     + 0.4 * 0.8 * cos (0.8 * u) * cos (0.6 * v)).
Proof.
  unfold surface_height, Geometry.surface_func. eapply dpl_eq; [dpl |].
  cbn beta. cbn [pred INR pow]. unfold Rdiv. unlit. field.
Qed.

Lemma surface_height_dv (u v : R) :
  derivable_pt_lim (fun s => surface_height u s) v
    (0.8 * exp (- (u ^ 2 / 9 + v ^ 2 / 4)) * (- (2 * v / 4))
     + - 0.4 * 0.6 * sin (0.8 * u) * sin (0.6 * v)).
Proof.
  unfold surface_height, Geometry.surface_func. eapply dpl_eq; [dpl |].
  cbn beta. cbn [pred INR pow]. unfold Rdiv. unlit. field.
Qed.

(** C6.  At every point [composite_gradient] returns the gradient
    [[df/dx, df/dy, 0]] of the field
    [f(x, y) = 0.8 exp(-x^2/(2 3^2) - y^2/(2 2^2)) + 0.4 sin(0.8 x) cos(0.6 y)],
    and along the returned vector [f] does not decrease to first order. *)
Theorem composite_gradient_is_gradient (x y : R) :
  exists g,
    Helpers.composite_gradient x y = Ok g /\
    gradient_at landscape_field x y g /\
    ascent_direction landscape_field x y g.
Proof.
  eexists. split; [apply composite_gradient_value |]. split.
  - split; [apply landscape_field_dx |]. split; [apply landscape_field_dy | reflexivity].
  - eexists. split; [apply landscape_field_along |].
    match goal with
    | |- 0 <= ?a * ?a + ?b * ?b =>
        pose proof (Rle_0_sqr a) as Ha; pose proof (Rle_0_sqr b) as Hb;
        unfold Rsqr in Ha, Hb; apply Rplus_le_le_0_compat; assumption
    end.
Qed.

(** At the origin the gradient of the field is [(0.32, 0, 0)]. *)
Example composite_gradient_origin :
  Helpers.composite_gradient 0 0 = Ok (0.32, 0, 0).
Proof.
  rewrite composite_gradient_value.
  replace (0.8 * 0) with 0 by ring. replace (0.6 * 0) with 0 by ring.
  rewrite cos_0, sin_0. apply vec3_eq; unlit; field.
Qed.

(** ** The rendered surface *)

Lemma exp_eighteenth : 17 / 18 < exp (- (1 / 18)) < 1.
Proof.
  split.
  - assert (N : - (1 / 18) <> 0) by lra.
    pose proof (exp_ineq1 (- (1 / 18)) N). lra.
  - assert (L : - (1 / 18) < 0) by lra.
    pose proof (exp_increasing _ _ L) as H. rewrite exp_0 in H. exact H.
Qed.

Lemma exp_ninth : exp (- (1 / 9)) = exp (- (1 / 18)) * exp (- (1 / 18)).
Proof.
  rewrite <- exp_plus. f_equal. field.
Qed.

(** C10.  [composite_gradient] is the gradient of the field with Gaussian
    widths 3 and 2, whose exponent is [-x^2/18 - y^2/8]; the height drawn by
    [abstract_landscape_surface] has the exponent [-(u^2/9 + v^2/4)] and is
    another function; at the point [(1, 0)] the vector returned by
    [composite_gradient] is not the gradient of the drawn height. *)
Theorem composite_gradient_not_surface_gradient :
  (forall x y, exists g,
     Helpers.composite_gradient x y = Ok g /\ gradient_at landscape_field x y g) /\
  (exists x y, landscape_field x y <> surface_height x y) /\
  (exists x y g,
     Helpers.composite_gradient x y = Ok g /\
     (exists s, gradient_at surface_height x y s) /\
     (forall s, gradient_at surface_height x y s -> g <> s)).
Proof.
  pose proof exp_eighteenth as [Hlo Hhi]. pose proof exp_ninth as E9.
  assert (A1 : - 1 ^ 2 / (2 * 3 ^ 2) - 0 ^ 2 / (2 * 2 ^ 2) = - (1 / 18)) by field.
  assert (A2 : - (1 ^ 2 / 9 + 0 ^ 2 / 4) = - (1 / 9)) by field.
  split; [| split].
  - intros x y. eexists. split; [apply composite_gradient_value |].
    split; [apply landscape_field_dx |]. split; [apply landscape_field_dy | reflexivity].
  - exists 1, 0. unfold landscape_field, surface_height, Geometry.surface_func.
    rewrite A1, A2, E9. intros H.
    assert (0.8 * exp (- (1 / 18)) = 0.8 * (exp (- (1 / 18)) * exp (- (1 / 18)))) by lra.
    nra.
  - exists 1, 0. eexists. split; [apply composite_gradient_value |]. split.
    + eexists (_, _, _). split; [apply surface_height_du |].
      split; [apply surface_height_dv | reflexivity].
    + intros [[su sv] sz] (Du & _ & _) Hx.
      apply (f_equal (fun p : vec3 => fst (fst p))) in Hx. cbn [fst] in Hx.
      pose proof (uniqueness_limite _ _ _ _ Du (surface_height_du 1 0)) as Hu.
      rewrite Hu, A1, A2, E9 in Hx.
      set (a := exp (- (1 / 18))) in *.
      set (c := 0.4 * 0.8 * cos (0.8 * 1) * cos (0.6 * 0)) in *.
      assert (a = 2 * (a * a)) by lra.
      nra.
Qed.

(** * Further properties of the helpers *)

(** ** [normalize_vector] *)

Lemma vec_div_ok (v : vector) (c : R) :
  c <> 0 -> vec_div v c = Ok (map (fun x => x / c) v).
Proof.
  intros Hc. induction v as [| x v IH]; cbn; [reflexivity |].
  rewrite div_ok by exact Hc. cbn. rewrite IH. reflexivity.
Qed.

Lemma vec_div_zero (x : R) (v : vector) : vec_div (x :: v) 0 = Raise ZeroDivision.
Proof.
  cbn. rewrite div_zero by reflexivity. reflexivity.
Qed.

Lemma np_sum_square_nonneg (v : vector) : 0 <= np_sum (np_square v).
Proof.
  induction v as [| x v IH].
  - unfold np_sum. cbn. lra.
  - change (np_square (x :: v)) with (x ^ 2 :: np_square v).
    rewrite np_sum_cons. pose proof (pow2_ge_0 x). lra.
Qed.

Lemma np_sum_square_div (v : vector) (c : R) :
  c <> 0 ->
  np_sum (np_square (map (fun x => x / c) v)) = np_sum (np_square v) / (c * c).
Proof.
  intros Hc. induction v as [| x v IH].
  - unfold np_sum. cbn. field. exact Hc.
  - change (np_square (map (fun x => x / c) (x :: v)))
      with ((x / c) ^ 2 :: np_square (map (fun x => x / c) v)).
    change (np_square (x :: v)) with (x ^ 2 :: np_square v).
    rewrite !np_sum_cons, IH. field. exact Hc.
Qed.

Lemma np_norm_nonneg (v : vector) : 0 <= np_norm v.
Proof. apply sqrt_pos. Qed.

Lemma np_norm_sqr (v : vector) : np_norm v * np_norm v = np_sum (np_square v).
Proof. apply sqrt_sqrt, np_sum_square_nonneg. Qed.

Lemma np_norm_normalized (v : vector) :
  0 < np_norm v -> np_norm (map (fun x => x / np_norm v) v) = 1.
Proof.
  intros H. unfold np_norm at 1.
  rewrite np_sum_square_div by lra. rewrite <- np_norm_sqr.
  replace (np_norm v * np_norm v / (np_norm v * np_norm v)) with 1 by (field; lra).
  apply sqrt_1.
Qed.

Lemma map_div_1 (v : vector) : map (fun x => x / 1) v = v.
Proof.
  induction v as [| x v IH]; cbn; [reflexivity |]. rewrite IH. f_equal. field.
Qed.

Lemma np_norm_zero_vector (n : nat) : np_norm (zero_vector n) = 0.
Proof.
  unfold np_norm.
  replace (np_sum (np_square (zero_vector n))) with 0; [apply sqrt_0 |].
  induction n as [| n IH].
  - reflexivity.
  - change (np_square (zero_vector (S n))) with (0 ^ 2 :: np_square (zero_vector n)).
    rewrite np_sum_cons, <- IH. ring.
Qed.

(** X1.  The guard of [normalize_vector] is the comparison of the norm with
    [epsilon].  With a positive [epsilon] no division by zero is met: a
    vector shorter than [epsilon] comes back unchanged, any other comes back
    divided by its norm and has norm 1.  With an [epsilon] that is not
    positive the guard lets the zero vector through, and a zero vector with
    at least one entry is divided by its norm 0. *)
Theorem normalize_vector_spec (v : vector) (epsilon : R) :
  (0 < epsilon ->
   exists u,
     Helpers.normalize_vector v epsilon = Ok u /\
     ((np_norm v < epsilon /\ u = v) \/
      (epsilon <= np_norm v /\ u = map (fun x => x / np_norm v) v /\ np_norm u = 1))) /\
  (epsilon <= 0 ->
   forall n, Helpers.normalize_vector (zero_vector (S n)) epsilon = Raise ZeroDivision).
Proof.
  unfold Helpers.normalize_vector. cbv zeta. split.
  - intros He.
    destruct (Rlt_dec (np_norm v) epsilon) as [Hlt | Hge].
    + exists v. split; [reflexivity |]. left. split; [exact Hlt | reflexivity].
    + rewrite vec_div_ok by lra. eexists. split; [reflexivity |].
      right. split; [lra |]. split; [reflexivity |].
      apply np_norm_normalized. lra.
  - intros He n. rewrite np_norm_zero_vector.
    destruct (Rlt_dec 0 epsilon) as [H | _]; [lra |].
    apply vec_div_zero.
Qed.

Lemma normalize_vector_spec_witness :
  (exists u, Helpers.normalize_vector [3; 4] 1e-8 = Ok u) /\
  Helpers.normalize_vector [0; 0; 0] 0 = Raise ZeroDivision.
Proof.
  assert (H : 0 < 1e-8) by lra.
  split.
  - destruct (proj1 (normalize_vector_spec [3; 4] 1e-8) H) as (u & E & _).
    exists u. exact E.
  - exact (proj2 (normalize_vector_spec [] 0) (Rle_refl 0) 2%nat).
Defined.

(** The vector [[3, 4]] has norm 5. *)
Example normalize_vector_3_4 :
  Helpers.normalize_vector [3; 4] 1e-8 = Ok [3 / 5; 4 / 5].
Proof.
  assert (N : np_norm [3; 4] = 5).
  { unfold np_norm, np_sum. cbn. apply sqrt_lem_1; lra. }
  unfold Helpers.normalize_vector. cbv zeta. rewrite N.
  destruct (Rlt_dec 5 1e-8) as [H | _]; [lra |].
  rewrite vec_div_ok by lra. reflexivity.
Qed.

(** X2.  Normalising twice is normalising once, whatever the positive
    [epsilon]. *)
Theorem normalize_vector_idempotent (v u : vector) (epsilon : R) :
  0 < epsilon ->
  Helpers.normalize_vector v epsilon = Ok u ->
  Helpers.normalize_vector u epsilon = Ok u.
Proof.
  intros He. unfold Helpers.normalize_vector. cbv zeta.
  destruct (Rlt_dec (np_norm v) epsilon) as [Hlt | Hge]; intros E.
  - injection E as <-.
    destruct (Rlt_dec (np_norm v) epsilon); [reflexivity | contradiction].
  - rewrite vec_div_ok in E by lra. injection E as <-.
    rewrite np_norm_normalized by lra.
    destruct (Rlt_dec 1 epsilon); [reflexivity |].
    rewrite vec_div_ok by lra. rewrite map_div_1. reflexivity.
Qed.

Lemma normalize_vector_idempotent_witness :
  Helpers.normalize_vector [3 / 5; 4 / 5] 1e-8 = Ok [3 / 5; 4 / 5].
Proof.
  assert (H : 0 < 1e-8) by lra.
  exact (normalize_vector_idempotent [3; 4] [3 / 5; 4 / 5] 1e-8 H normalize_vector_3_4).
Defined.

(** ** [path_normal_2d] *)

(** X3.  The vector returned by [path_normal_2d] lies in the plane, is
    perpendicular to the tangent, is as long as the planar part of the
    tangent, and taken twice gives the opposite of that planar part. *)
Theorem path_normal_2d_spec (tx ty tz : R) :
  exists nx ny,
    Helpers.path_normal_2d (tx, ty, tz) = (nx, ny, 0) /\
    tx * nx + ty * ny = 0 /\
    nx ^ 2 + ny ^ 2 = tx ^ 2 + ty ^ 2 /\
    Helpers.path_normal_2d (nx, ny, 0) = (- tx, - ty, 0).
Proof.
  exists (- ty), tx. unfold Helpers.path_normal_2d.
  replace 0.0 with 0 by lra.
  split; [reflexivity |]. split; [ring |]. split; [ring | reflexivity].
Qed.

(** ** [lerp_path] and [create_morphing_path] *)

Lemma vec3_ext (a b c a' b' c' : R) :
  a = a' -> b = b' -> c = c' -> (a, b, c) = (a', b', c').
Proof. intros -> -> ->. reflexivity. Qed.

(** X4.  Blending [A] into [B] by [alpha] is blending [B] into [A] by
    [1 - alpha]; a path blended with itself is that path; the blend by
    [alpha] then by [beta] towards the same path [B] is one blend by
    [alpha + beta - alpha beta]. *)
Theorem lerp_path_algebra (path_a path_b : R -> vec3) (alpha beta t : R) :
  Helpers.lerp_path path_a path_b alpha t = Helpers.lerp_path path_b path_a (1 - alpha) t /\
  Helpers.lerp_path path_a path_a alpha t = path_a t /\
  Helpers.lerp_path (Helpers.lerp_path path_a path_b alpha) path_b beta t =
    Helpers.lerp_path path_a path_b (alpha + beta - alpha * beta) t.
Proof.
  unfold Helpers.lerp_path. cbv zeta.
  destruct (path_a t) as [[xa ya] za], (path_b t) as [[xb yb] zb]. cbn.
  repeat split; apply vec3_ext; ring.
Qed.

(** X5.  Called while the tracker holds [alpha], the path made by
    [create_morphing_path] is the path [lerp_path] makes for [alpha]: the
    start path while the tracker is at 0, the end path while it is at 1. *)
Theorem create_morphing_path_spec (path_start path_end : R -> vec3) (alpha t : R) :
  Geometry.create_morphing_path alpha path_start path_end t =
    Helpers.lerp_path path_start path_end alpha t /\
  Geometry.create_morphing_path 0 path_start path_end t = path_start t /\
  Geometry.create_morphing_path 1 path_start path_end t = path_end t.
Proof.
  split; [reflexivity |].
  unfold Geometry.create_morphing_path. cbv zeta.
  destruct (path_start t) as [[xa ya] za], (path_end t) as [[xb yb] zb]. cbn.
  split; apply vec3_ext; ring.
Qed.

(** ** [smooth_step], further *)

Lemma smooth_step_value (t e0 e1 : R) :
  e0 <> e1 ->
  Helpers.smooth_step t e0 e1 =
  Ok (let s := clip ((t - e0) / (e1 - e0)) 0.0 1.0 in s * s * (3.0 - 2.0 * s)).
Proof.
  intros H. unfold Helpers.smooth_step. rewrite div_ok by lra. reflexivity.
Qed.

Lemma clip_complement (x : R) : clip (1 - x) 0.0 1.0 = 1 - clip x 0.0 1.0.
Proof.
  destruct (Rle_dec x 0) as [H0 | H0].
  - rewrite (clip_below x) by exact H0. rewrite clip_above by lra. ring.
  - destruct (Rle_dec 1 x) as [H1 | H1].
    + rewrite (clip_above x) by exact H1. rewrite clip_below by lra. ring.
    + rewrite !clip_inside by lra. reflexivity.
Qed.

(** X6.  With two different edges, in either order, [smooth_step] returns a
    number of [[0, 1]] for every [t]; with equal edges it divides by zero. *)
Theorem smooth_step_range (t edge0 edge1 : R) :
  (edge0 <> edge1 ->
   exists v, Helpers.smooth_step t edge0 edge1 = Ok v /\ 0 <= v <= 1) /\
  Helpers.smooth_step t edge0 edge0 = Raise ZeroDivision.
Proof.
  split.
  - intros H. rewrite smooth_step_value by exact H. cbv zeta.
    eexists. split; [reflexivity |].
    pose proof (clip_range ((t - edge0) / (edge1 - edge0))) as [H0 H1].
    set (s := clip _ _ _) in *.
    replace 3.0 with 3 by lra. replace 2.0 with 2 by lra.
    pose proof (hermite_monotone 0 s (Rle_refl 0) H0 H1) as L.
    pose proof (hermite_monotone s 1 H0 H1 (Rle_refl 1)) as U.
    lra.
  - unfold Helpers.smooth_step. rewrite div_zero by ring. reflexivity.
Qed.

Lemma smooth_step_range_witness :
  exists v, Helpers.smooth_step 7 5 2 = Ok v /\ 0 <= v <= 1.
Proof.
  assert (H : 5 <> 2) by lra.
  exact (proj1 (smooth_step_range 7 5 2) H).
Defined.

(** X7.  Exchanging the edges turns the rising step into the falling one:
    [smooth_step(t, edge1, edge0) = 1 - smooth_step(t, edge0, edge1)]. *)
Theorem smooth_step_reversed (t edge0 edge1 : R) :
  edge0 <> edge1 ->
  exists v,
    Helpers.smooth_step t edge0 edge1 = Ok v /\
    Helpers.smooth_step t edge1 edge0 = Ok (1 - v).
Proof.
  intros H. rewrite !smooth_step_value by lra. cbv zeta.
  eexists. split; [reflexivity |].
  replace ((t - edge1) / (edge0 - edge1)) with (1 - (t - edge0) / (edge1 - edge0))
    by (field; lra).
  rewrite clip_complement. f_equal. unlit. field.
Qed.

Lemma smooth_step_reversed_witness :
  exists v, Helpers.smooth_step 0.5 0 2 = Ok v /\ Helpers.smooth_step 0.5 2 0 = Ok (1 - v).
Proof.
  assert (H : 0 <> 2) by lra.
  exact (smooth_step_reversed 0.5 0 2 H).
Defined.

(** ** [numerical_gradient_2d], further *)

(** X8.  On a polynomial of degree two the central differences are the
    partial derivatives themselves, whatever the step other than zero. *)
Theorem numerical_gradient_2d_quadratic (a b c d e k x y h : R) :
  h <> 0 ->
  Helpers.numerical_gradient_2d
    (fun u v => a * u ^ 2 + b * u * v + c * v ^ 2 + d * u + e * v + k) x y h =
  Ok (2 * a * x + b * y + d, b * x + 2 * c * y + e, 0).
Proof.
  intros Hh. unfold Helpers.numerical_gradient_2d.
  rewrite !div_ok by lra. cbn [bind].
  apply vec3_eq; [field; exact Hh | field; exact Hh | lra].
Qed.

Lemma numerical_gradient_2d_quadratic_witness :
  Helpers.numerical_gradient_2d
    (fun u v => 1 * u ^ 2 + 0 * u * v + 1 * v ^ 2 + 0 * u + 0 * v + 0) 3 4 1 =
  Ok (2 * 1 * 3 + 0 * 4 + 0, 0 * 3 + 2 * 1 * 4 + 0, 0).
Proof.
  exact (numerical_gradient_2d_quadratic 1 0 1 0 0 0 3 4 1 R1_neq_R0).
Defined.

(** X9.  The sign of the step does not matter: [-h] gives what [h] gives. *)
Theorem numerical_gradient_2d_even (func : R -> R -> R) (x y h : R) :
  h <> 0 ->
  Helpers.numerical_gradient_2d func x y (- h) = Helpers.numerical_gradient_2d func x y h.
Proof.
  intros Hh. unfold Helpers.numerical_gradient_2d.
  rewrite !div_ok by lra. cbn [bind].
  replace (x + - h) with (x - h) by ring. replace (x - - h) with (x + h) by ring.
  replace (y + - h) with (y - h) by ring. replace (y - - h) with (y + h) by ring.
  apply vec3_eq; [field; exact Hh | field; exact Hh | reflexivity].
Qed.

Lemma numerical_gradient_2d_even_witness :
  Helpers.numerical_gradient_2d (fun u v => exp u * v) 0 1 (- 1) =
  Helpers.numerical_gradient_2d (fun u v => exp u * v) 0 1 1.
Proof.
  exact (numerical_gradient_2d_even (fun u v => exp u * v) 0 1 1 R1_neq_R0).
Defined.

(** * Further properties of the energy *)

Lemma Sigma_le (n : nat) (f g : nat -> R) :
  (forall i, (i < n)%nat -> f i <= g i) -> Sigma n f <= Sigma n g.
Proof.
  induction n as [| n IH]; intros H; cbn; [lra |].
  assert (Sigma n f <= Sigma n g) by (apply IH; intros i Hi; apply H; lia).
  assert (f n <= g n) by (apply H; lia). lra.
Qed.

Lemma Sigma_plus (n : nat) (f g : nat -> R) :
  Sigma n (fun i => f i + g i) = Sigma n f + Sigma n g.
Proof.
  induction n as [| n IH]; cbn; [ring |]. rewrite IH. ring.
Qed.

Lemma cos_sin_unit (theta : R) : cos theta * cos theta + sin theta * sin theta = 1.
Proof.
  pose proof (sin2_cos2 theta) as H. unfold Rsqr in H. lra.
Qed.

Lemma projected_energy_le (P : matrix) (theta : R) :
  projected_energy P theta <= sum_sq_norms P.
Proof.
  apply Sigma_le. intros i _.
  set (a := entry P i 0). set (b := entry P i 1).
  pose proof (cos_sin_unit theta) as U.
  set (c := cos theta) in *. set (s := sin theta) in *.
  assert (E : a ^ 2 + b ^ 2 = (a * c + b * s) ^ 2 + (a * s - b * c) ^ 2).
  { transitivity ((a ^ 2 + b ^ 2) * (c * c + s * s)); [rewrite U; ring | ring]. }
  rewrite E. pose proof (pow2_ge_0 (a * s - b * c)). lra.
Qed.

(** X10.  In exact arithmetic the clamp of [energy_ratio] never acts: for an
    N x 2 point set the projected energy is at most the sum of the squared
    norms, so [energy_ratio] returns the plain quotient, which is below 1. *)
Theorem energy_ratio_unclamped (P : matrix) (theta : R) :
  n_by_2 P ->
  projected_energy P theta <= sum_sq_norms P /\
  BaseScenes.energy_ratio P theta = Ok (projected_energy P theta / (sum_sq_norms P + 1e-6)) /\
  projected_energy P theta / (sum_sq_norms P + 1e-6) < 1.
Proof.
  intros H.
  pose proof (projected_energy_le P theta) as Hle.
  pose proof (projected_energy_nonneg P theta) as H0.
  pose proof (sum_sq_norms_nonneg P) as HT.
  assert (Hpos : 0 < sum_sq_norms P + 1e-6) by lra.
  assert (Hq : 0 <= projected_energy P theta / (sum_sq_norms P + 1e-6) < 1).
  { split.
    - apply Rmult_le_pos; [exact H0 | left; apply Rinv_0_lt_compat; exact Hpos].
    - apply Rmult_lt_reg_r with (sum_sq_norms P + 1e-6); [exact Hpos |].
      unfold Rdiv. rewrite Rmult_assoc, Rinv_l by lra. lra. }
  split; [exact Hle |]. split; [| apply Hq].
  rewrite energy_ratio_ok by exact H. f_equal. apply clip_inside. lra.
Qed.

Lemma energy_ratio_unclamped_witness :
  BaseScenes.energy_ratio [[1; 0]; [0; 2]] 0 =
  Ok (projected_energy [[1; 0]; [0; 2]] 0 / (sum_sq_norms [[1; 0]; [0; 2]] + 1e-6)).
Proof.
  refine (proj1 (proj2 (energy_ratio_unclamped [[1; 0]; [0; 2]] 0 _))).
  repeat constructor.
Defined.

Lemma cos_quarter_turn (theta : R) : cos (theta + PI / 2) = - sin theta.
Proof.
  rewrite cos_plus, cos_PI2, sin_PI2. ring.
Qed.

Lemma sin_quarter_turn (theta : R) : sin (theta + PI / 2) = cos theta.
Proof.
  rewrite sin_plus, cos_PI2, sin_PI2. ring.
Qed.

(** X11.  For an N x 2 point set the energies shown along a direction and
    along the direction a quarter turn further add up to the sum of the
    squared norms of the points, and the energy along the opposite direction
    is the same energy. *)
Theorem update_energy_orthogonal_split (P : matrix) (theta : R) :
  n_by_2 P ->
  exists e1 e2,
    Pod2D.update_energy P theta = Ok e1 /\
    Pod2D.update_energy P (theta + PI / 2) = Ok e2 /\
    e1 + e2 = np_sum (np_square (row_norms P)) /\
    Pod2D.update_energy P (theta + PI) = Ok e1.
Proof.
  intros H. rewrite !update_energy_ok by exact H.
  eexists. eexists. split; [reflexivity |]. split; [reflexivity |]. split.
  - rewrite norms_sum by exact H. unfold projected_energy, sum_sq_norms.
    rewrite <- Sigma_plus. apply Sigma_ext. intros i _.
    rewrite cos_quarter_turn, sin_quarter_turn.
    set (a := entry P i 0). set (b := entry P i 1).
    pose proof (cos_sin_unit theta) as U.
    set (c := cos theta) in *. set (s := sin theta) in *.
    transitivity ((a ^ 2 + b ^ 2) * (c * c + s * s)); [ring | rewrite U; ring].
  - f_equal. unfold projected_energy. apply Sigma_ext. intros i _.
    rewrite neg_cos, neg_sin. ring.
Qed.

Lemma update_energy_orthogonal_split_witness :
  exists e1 e2,
    Pod2D.update_energy [[1; 0]; [0; 2]] 0 = Ok e1 /\
    Pod2D.update_energy [[1; 0]; [0; 2]] (0 + PI / 2) = Ok e2 /\
    e1 + e2 = np_sum (np_square (row_norms [[1; 0]; [0; 2]])).
Proof.
  assert (H : n_by_2 [[1; 0]; [0; 2]]) by (repeat constructor).
  destruct (update_energy_orthogonal_split [[1; 0]; [0; 2]] 0 H)
    as (e1 & e2 & E1 & E2 & S & _).
  exists e1, e2. split; [exact E1 |]. split; [exact E2 | exact S].
Defined.

(** X12.  The foot of a projection line is the orthogonal projection of the
    point on the scan direction: what is left of the point is perpendicular
    to the direction, and the squared lengths of the two parts add up to the
    squared length of the point. *)
Theorem update_projections_orthogonal (x y angle : R) :
  exists px py,
    Pod2D.update_projections x y angle = Ok [px; py] /\
    (x - px) * cos angle + (y - py) * sin angle = 0 /\
    px ^ 2 + py ^ 2 = (x * cos angle + y * sin angle) ^ 2 /\
    x ^ 2 + y ^ 2 = (px ^ 2 + py ^ 2) + ((x - px) ^ 2 + (y - py) ^ 2).
Proof.
  unfold Pod2D.update_projections. cbn.
  eexists. eexists. split; [reflexivity |].
  pose proof (cos_sin_unit angle) as U.
  set (c := cos angle) in *. set (s := sin angle) in *.
  assert (Uc : c * c = 1 - s * s) by lra.
  split; [| split].
  - transitivity ((x * c + y * s) * (1 - (c * c + s * s))); [ring | rewrite U; ring].
  - transitivity ((x * c + y * s) ^ 2 * (c * c + s * s)); [ring | rewrite U; ring].
  - transitivity (x ^ 2 + y ^ 2
                  + 2 * (x * c + y * s) ^ 2 * ((c * c + s * s) - 1));
      [rewrite U; ring | ring].
Qed.

(** X13.  The direction of the second mode is a unit vector perpendicular to
    the direction of the first mode. *)
Theorem mode2_direction_orthogonal (mode1_angle : R) :
  exists vx vy,
    Pod2D.mode2_direction mode1_angle = [vx; vy] /\
    vx * cos mode1_angle + vy * sin mode1_angle = 0 /\
    vx ^ 2 + vy ^ 2 = 1.
Proof.
  unfold Pod2D.mode2_direction. cbv zeta.
  rewrite cos_quarter_turn, sin_quarter_turn.
  eexists. eexists. split; [reflexivity |].
  pose proof (cos_sin_unit mode1_angle) as U.
  split; [ring | lra].
Qed.

(** * Further properties of the covariance matrix and the level sets *)

Lemma vec2_eq (a b a' b' : R) : a = a' -> b = b' -> @Ok vector [a; b] = Ok [a'; b'].
Proof. intros -> ->. reflexivity. Qed.

(** X14.  The matrix built by [create_pod_covariance_matrix] has the
    direction [[cos theta, sin theta]] as eigenvector for [lambda1] and the
    perpendicular direction as eigenvector for [lambda2]; its trace is
    [lambda1 + lambda2] and its determinant [lambda1 lambda2]. *)
Theorem create_pod_covariance_matrix_eigenpairs (theta lambda1 lambda2 : R) :
  exists C,
    Geometry.create_pod_covariance_matrix theta lambda1 lambda2 = Ok C /\
    matvec C [cos theta; sin theta] = Ok [lambda1 * cos theta; lambda1 * sin theta] /\
    matvec C [- sin theta; cos theta] = Ok [lambda2 * - sin theta; lambda2 * cos theta] /\
    entry C 0 0 + entry C 1 1 = lambda1 + lambda2 /\
    entry C 0 0 * entry C 1 1 - entry C 0 1 * entry C 1 0 = lambda1 * lambda2.
Proof.
  eexists. split; [apply create_pod_covariance_matrix_value |].
  pose proof (cos_sin_unit theta) as U.
  set (c := cos theta) in *. set (s := sin theta) in *.
  unfold entry. cbn.
  split; [| split; [| split]].
  - apply vec2_eq.
    + transitivity (lambda1 * c * (c * c + s * s)); [ring | rewrite U; ring].
    + transitivity (lambda1 * s * (c * c + s * s)); [ring | rewrite U; ring].
  - apply vec2_eq.
    + transitivity (lambda2 * - s * (c * c + s * s)); [ring | rewrite U; ring].
    + transitivity (lambda2 * c * (c * c + s * s)); [ring | rewrite U; ring].
  - transitivity ((lambda1 + lambda2) * (c * c + s * s)); [ring | rewrite U; ring].
  - transitivity (lambda1 * lambda2 * ((c * c + s * s) * (c * c + s * s)));
      [ring | rewrite U; ring].
Qed.

(** X15.  On the unit circle the quadratic form of the matrix built for
    [lambda2 <= lambda1] lies between [lambda2] and [lambda1], and takes the
    value [lambda1] at the direction [[cos theta, sin theta]]: that direction
    maximises [u^T C u] under the constraint of unit length.  Read through
    [quadratic_form_level_set], the level is subtracted. *)
Theorem quadratic_form_covariance_bounds (theta lambda1 lambda2 level x y : R) :
  lambda2 <= lambda1 ->
  x ^ 2 + y ^ 2 = 1 ->
  exists C q qmax,
    Geometry.create_pod_covariance_matrix theta lambda1 lambda2 = Ok C /\
    Geometry.quadratic_form_level_set C level x y = Ok q /\
    lambda2 - level <= q <= lambda1 - level /\
    Geometry.quadratic_form_level_set C level (cos theta) (sin theta) = Ok qmax /\
    qmax = lambda1 - level.
Proof.
  intros Hl Hu.
  eexists. eexists. eexists.
  split; [apply create_pod_covariance_matrix_value |].
  unfold Geometry.quadratic_form_level_set. cbv zeta. rewrite !quad_form_2x2. cbn [bind].
  split; [reflexivity |].
  pose proof (cos_sin_unit theta) as U.
  set (c := cos theta) in *. set (s := sin theta) in *.
  split; [| split; [reflexivity |]].
  - set (p := c * x + s * y). set (r := c * y - s * x).
    assert (Epr : p * p + r * r = 1).
    { transitivity ((x ^ 2 + y ^ 2) * (c * c + s * s)); [unfold p, r; ring |].
      rewrite U, Hu. ring. }
    assert (Eq : (x * (c * c * lambda1 + s * s * lambda2) + y * (c * s * (lambda1 - lambda2))) * x
                 + (x * (c * s * (lambda1 - lambda2)) + y * (s * s * lambda1 + c * c * lambda2)) * y
                 = lambda1 * (p * p) + lambda2 * (r * r)) by (unfold p, r; ring).
    rewrite Eq.
    assert (Hp : 0 <= p * p) by apply Rle_0_sqr.
    assert (Hr : 0 <= r * r) by apply Rle_0_sqr.
    replace (r * r) with (1 - p * p) by lra.
    replace (lambda1 * (p * p) + lambda2 * (1 - p * p))
      with (lambda2 + (lambda1 - lambda2) * (p * p)) by ring.
    assert (0 <= (lambda1 - lambda2) * (p * p)) by (apply Rmult_le_pos; lra).
    assert ((lambda1 - lambda2) * (p * p) <= (lambda1 - lambda2) * 1)
      by (apply Rmult_le_compat_l; lra).
    lra.
  - subst c s.
    transitivity (lambda1 * ((cos theta * cos theta + sin theta * sin theta)
                             * (cos theta * cos theta + sin theta * sin theta)) - level);
      [ring | rewrite U; ring].
Qed.

Lemma quadratic_form_covariance_bounds_witness :
  exists C q,
    Geometry.create_pod_covariance_matrix (PI / 4) 4.0 1.0 = Ok C /\
    Geometry.quadratic_form_level_set C 1.0 1 0 = Ok q /\
    1.0 - 1.0 <= q <= 4.0 - 1.0.
Proof.
  assert (Hl : 1.0 <= 4.0) by lra.
  assert (Hu : 1 ^ 2 + 0 ^ 2 = 1) by (cbn; ring).
  destruct (quadratic_form_covariance_bounds (PI / 4) 4.0 1.0 1.0 1 0 Hl Hu)
    as (C & q & _ & E & Q & B & _).
  exists C, q. split; [exact E |]. split; [exact Q | exact B].
Defined.

(** X16.  For a two-by-two matrix [quadratic_form_level_set] returns
    [a x^2 + (b + c) x y + d y^2 - level]; a matrix with another number of
    rows is refused, its shape not fitting the vector [[x, y]]. *)
Theorem quadratic_form_level_set_shape (level x y : R) :
  (forall a b c d,
     Geometry.quadratic_form_level_set [[a; b]; [c; d]] level x y =
     Ok (a * x ^ 2 + (b + c) * x * y + d * y ^ 2 - level)) /\
  (forall Q : matrix,
     length Q <> 2%nat ->
     Geometry.quadratic_form_level_set Q level x y = Raise ShapeMismatch).
Proof.
  split.
  - intros a b c d. unfold Geometry.quadratic_form_level_set. cbv zeta.
    rewrite quad_form_2x2. cbn [bind]. f_equal. ring.
  - intros Q HQ. unfold Geometry.quadratic_form_level_set, quad_form, vecmat. cbv zeta.
    destruct (Nat.eqb_spec (length [x; y]) (length Q)) as [E | _].
    + exfalso. apply HQ. symmetry. exact E.
    + reflexivity.
Qed.

Lemma quadratic_form_level_set_shape_witness :
  Geometry.quadratic_form_level_set [[1; 0; 0]; [0; 1; 0]; [0; 0; 1]] 1 2 3 =
  Raise ShapeMismatch.
Proof.
  refine (proj2 (quadratic_form_level_set_shape 1 2 3) _ _).
  cbn. discriminate.
Defined.

(** ** [gaussian_level_set] *)

Lemma gaussian_level_set_value (level sigma_x sigma_y amplitude x y : R) :
  sigma_x <> 0 -> sigma_y <> 0 ->
  Geometry.gaussian_level_set level sigma_x sigma_y amplitude x y =
  Ok (gaussian 0 0 sigma_x sigma_y amplitude x y - level).
Proof.
  intros Hx Hy.
  assert (Sx : sigma_x ^ 2 <> 0) by (apply pow_nonzero; exact Hx).
  assert (Sy : sigma_y ^ 2 <> 0) by (apply pow_nonzero; exact Hy).
  unfold Geometry.gaussian_level_set. rewrite !div_ok by lra. cbn [bind].
  unfold gaussian.
  replace (- (x ^ 2 / (2 * sigma_x ^ 2) + y ^ 2 / (2 * sigma_y ^ 2)))
    with (- (x - 0) ^ 2 / (2 * sigma_x ^ 2) - (y - 0) ^ 2 / (2 * sigma_y ^ 2))
    by (field; repeat split; assumption).
  reflexivity.
Qed.

(** X17.  With widths other than zero and an amplitude that is not negative,
    the function of [gaussian_level_set] is at most [amplitude - level], the
    value it takes at the origin; so a level above the amplitude has an
    empty level set: the function is negative everywhere.  A zero width is a
    division by zero. *)
Theorem gaussian_level_set_bound (level sigma_x sigma_y amplitude x y : R) :
  (sigma_x <> 0 -> sigma_y <> 0 -> 0 <= amplitude ->
   exists z,
     Geometry.gaussian_level_set level sigma_x sigma_y amplitude x y = Ok z /\
     z <= amplitude - level /\
     Geometry.gaussian_level_set level sigma_x sigma_y amplitude 0 0 = Ok (amplitude - level) /\
     (amplitude < level -> z < 0)) /\
  Geometry.gaussian_level_set level 0 sigma_y amplitude x y = Raise ZeroDivision.
Proof.
  split.
  - intros Hx Hy Ha.
    rewrite !gaussian_level_set_value by assumption.
    eexists. split; [reflexivity |].
    assert (Sx : 0 < sigma_x ^ 2)
      by (pose proof (pow2_ge_0 sigma_x); pose proof (pow_nonzero sigma_x 2 Hx); lra).
    assert (Sy : 0 < sigma_y ^ 2)
      by (pose proof (pow2_ge_0 sigma_y); pose proof (pow_nonzero sigma_y 2 Hy); lra).
    assert (Hexp : exp (- (x - 0) ^ 2 / (2 * sigma_x ^ 2) - (y - 0) ^ 2 / (2 * sigma_y ^ 2)) <= 1).
    { rewrite <- exp_0 at 1.
      destruct (Req_dec (- (x - 0) ^ 2 / (2 * sigma_x ^ 2) - (y - 0) ^ 2 / (2 * sigma_y ^ 2)) 0)
        as [E | N]; [rewrite E; lra |].
      left. apply exp_increasing.
      assert (0 <= (x - 0) ^ 2 / (2 * sigma_x ^ 2)).
      { apply Rmult_le_pos; [apply pow2_ge_0 | left; apply Rinv_0_lt_compat; lra]. }
      assert (0 <= (y - 0) ^ 2 / (2 * sigma_y ^ 2)).
      { apply Rmult_le_pos; [apply pow2_ge_0 | left; apply Rinv_0_lt_compat; lra]. }
      unfold Rdiv in *. rewrite <- Ropp_mult_distr_l in *. lra. }
    assert (Hz : gaussian 0 0 sigma_x sigma_y amplitude x y - level <= amplitude - level).
    { unfold gaussian. nra. }
    split; [exact Hz |]. split.
    + f_equal. unfold gaussian.
      replace (- (0 - 0) ^ 2 / (2 * sigma_x ^ 2) - (0 - 0) ^ 2 / (2 * sigma_y ^ 2)) with 0
        by (field; split; lra).
      rewrite exp_0. ring.
    + intros Hlev. lra.
  - unfold Geometry.gaussian_level_set. rewrite div_zero by (cbn; ring). reflexivity.
Qed.

Lemma gaussian_level_set_bound_witness :
  exists z,
    Geometry.gaussian_level_set 0.5 3.0 2.0 0.8 1 1 = Ok z /\ z <= 0.8 - 0.5.
Proof.
  assert (Hx : 3.0 <> 0) by lra. assert (Hy : 2.0 <> 0) by lra.
  assert (Ha : 0 <= 0.8) by lra.
  destruct (proj1 (gaussian_level_set_bound 0.5 3.0 2.0 0.8 1 1) Hx Hy Ha)
    as (z & E & B & _).
  exists z. split; [exact E | exact B].
Defined.

(** X18.  [gaussian_gradient] with its centre at the origin returns the
    gradient of the function of [gaussian_level_set], whatever the level:
    the arrows it gives are the normals of the contours drawn from
    [gaussian_level_set]. *)
Theorem gaussian_gradient_of_level_set (level sigma_x sigma_y amplitude x y : R) :
  sigma_x <> 0 -> sigma_y <> 0 ->
  exists g (F : R -> R -> R),
    Helpers.gaussian_gradient x y (0, 0) sigma_x sigma_y amplitude = Ok g /\
    (forall u v, Geometry.gaussian_level_set level sigma_x sigma_y amplitude u v = Ok (F u v)) /\
    gradient_at F x y g.
Proof.
  intros Hx Hy.
  destruct (gaussian_gradient_is_gradient x y 0 0 sigma_x sigma_y amplitude Hx Hy)
    as ([[gx gy] gz] & E & Dx & Dy & Dz).
  exists (gx, gy, gz), (fun u v => gaussian 0 0 sigma_x sigma_y amplitude u v - level).
  split; [exact E |]. split.
  - intros u v. apply gaussian_level_set_value; assumption.
  - split; [| split; [| exact Dz]].
    + eapply dpl_eq; [apply dpl_minus; [exact Dx | apply dpl_const] | ring].
    + eapply dpl_eq; [apply dpl_minus; [exact Dy | apply dpl_const] | ring].
Qed.

Lemma gaussian_gradient_of_level_set_witness :
  exists g, Helpers.gaussian_gradient 1 1 (0, 0) 3.0 2.0 0.8 = Ok g.
Proof.
  assert (Hx : 3.0 <> 0) by lra. assert (Hy : 2.0 <> 0) by lra.
  destruct (gaussian_gradient_of_level_set 0.5 3.0 2.0 0.8 1 1 Hx Hy) as (g & _ & E & _).
  exists g. exact E.
Defined.

(** X19.  [gaussian_gradient] does what its docstring says: with widths
    other than zero it returns the gradient of
    [A exp(-(x - cx)^2 / (2 sx^2) - (y - cy)^2 / (2 sy^2))] with 0 as third
    entry, and at the centre that gradient is zero; with a zero width it
    divides by zero. *)
Theorem gaussian_gradient_spec (x y cx cy sigma_x sigma_y amplitude : R) :
  (sigma_x <> 0 -> sigma_y <> 0 ->
   (exists g,
      Helpers.gaussian_gradient x y (cx, cy) sigma_x sigma_y amplitude = Ok g /\
      gradient_at (gaussian cx cy sigma_x sigma_y amplitude) x y g) /\
   Helpers.gaussian_gradient cx cy (cx, cy) sigma_x sigma_y amplitude = Ok (0, 0, 0)) /\
  Helpers.gaussian_gradient x y (cx, cy) 0 sigma_y amplitude = Raise ZeroDivision /\
  Helpers.gaussian_gradient x y (cx, cy) sigma_x 0 amplitude = Raise ZeroDivision.
Proof.
  split; [| split].
  - intros Hx Hy. split; [apply gaussian_gradient_is_gradient; assumption |].
    assert (Sx : sigma_x ^ 2 <> 0) by (apply pow_nonzero; exact Hx).
    assert (Sy : sigma_y ^ 2 <> 0) by (apply pow_nonzero; exact Hy).
    unfold Helpers.gaussian_gradient.
    rewrite !div_ok by lra. cbn [bind]. rewrite !div_ok by assumption. cbn [bind].
    apply vec3_eq; [field; assumption | field; assumption | lra].
  - apply gaussian_gradient_zero_width.
  - unfold Helpers.gaussian_gradient.
    destruct (Req_dec_T (2 * sigma_x ^ 2) 0) as [Z | N].
    + rewrite div_zero by exact Z. reflexivity.
    + rewrite div_ok by exact N. cbn [bind].
      rewrite div_zero by (cbn; ring). reflexivity.
Qed.

Lemma gaussian_gradient_spec_witness :
  Helpers.gaussian_gradient 1 2 (1, 2) 3.0 2.0 0.8 = Ok (0, 0, 0).
Proof.
  assert (Hx : 3.0 <> 0) by lra. assert (Hy : 2.0 <> 0) by lra.
  exact (proj2 (proj1 (gaussian_gradient_spec 1 2 1 2 3.0 2.0 0.8) Hx Hy)).
Defined.

(** * The constraint paths *)

Lemma sin_3_turn (t : R) : sin (3 * (t + 2 * PI)) = sin (3 * t).
Proof.
  replace (3 * (t + 2 * PI)) with (3 * t + 2 * INR 3 * PI) by (cbn; ring).
  apply sin_period.
Qed.

Lemma cos_2_turn (t : R) : cos (2 * (t + 2 * PI)) = cos (2 * t).
Proof.
  replace (2 * (t + 2 * PI)) with (2 * t + 2 * INR 2 * PI) by (cbn; ring).
  apply cos_period.
Qed.

Lemma sin_turn (t : R) : sin (t + 2 * PI) = sin t.
Proof.
  replace (t + 2 * PI) with (t + 2 * INR 1 * PI) by (cbn; ring).
  apply sin_period.
Qed.

Lemma cos_turn (t : R) : cos (t + 2 * PI) = cos t.
Proof.
  replace (t + 2 * PI) with (t + 2 * INR 1 * PI) by (cbn; ring).
  apply cos_period.
Qed.

(** X20.  The wavy ellipse is a closed planar curve: its third coordinate is
    0 and a whole turn of the parameter brings back the same point; without
    waves it is the ellipse of half-axes [3 scale] and [1.8 scale]. *)
Theorem wavy_ellipse_path_spec (scale wave_amplitude t : R) :
  (exists x y, Geometry.wavy_ellipse_path scale wave_amplitude t = (x, y, 0)) /\
  Geometry.wavy_ellipse_path scale wave_amplitude (t + 2 * PI) =
    Geometry.wavy_ellipse_path scale wave_amplitude t /\
  (exists x y,
     Geometry.wavy_ellipse_path scale 0 t = (x, y, 0) /\
     (1.8 * x) ^ 2 + (3.0 * y) ^ 2 = (3.0 * 1.8 * scale) ^ 2).
Proof.
  unfold Geometry.wavy_ellipse_path. cbv zeta. replace 0.0 with 0 by lra.
  split; [| split].
  - eexists. eexists. reflexivity.
  - rewrite sin_3_turn, cos_2_turn, sin_turn, cos_turn. reflexivity.
  - eexists. eexists. split; [reflexivity |].
    pose proof (cos_sin_unit t) as U.
    transitivity ((3.0 * 1.8 * scale) ^ 2 * (cos t * cos t + sin t * sin t));
      [ring | rewrite U; ring].
Qed.

(** X21.  The circle path stays at distance [|radius|] from the origin, in
    the plane, and closes after a whole turn. *)
Theorem perfect_circle_path_spec (radius t : R) :
  (exists x y,
     Geometry.perfect_circle_path radius t = (x, y, 0) /\
     x ^ 2 + y ^ 2 = radius ^ 2 /\
     vec3_norm (x, y, 0) = Rabs radius) /\
  Geometry.perfect_circle_path radius (t + 2 * PI) = Geometry.perfect_circle_path radius t.
Proof.
  unfold Geometry.perfect_circle_path. cbv zeta. replace 0.0 with 0 by lra.
  pose proof (cos_sin_unit t) as U.
  assert (E : (radius * cos t) ^ 2 + (radius * sin t) ^ 2 = radius ^ 2).
  { transitivity (radius ^ 2 * (cos t * cos t + sin t * sin t)); [ring | rewrite U; ring]. }
  split.
  - eexists. eexists. split; [reflexivity |]. split; [exact E |].
    unfold vec3_norm, np_sum. cbn [np_square map fold_left].
    replace (0 + (radius * cos t) ^ 2 + (radius * sin t) ^ 2 + 0 ^ 2) with (radius ^ 2)
      by (rewrite <- E; ring).
    replace (radius ^ 2) with (Rsqr radius) by (unfold Rsqr; ring).
    apply sqrt_Rsqr_abs.
  - rewrite sin_turn, cos_turn. reflexivity.
Qed.

(** * Contour levels *)

Lemma np_linspace_length (start stop : R) (num : nat) :
  length (np_linspace start stop num) = num.
Proof.
  destruct num as [| [| k]]; cbn [np_linspace]; [reflexivity | reflexivity |].
  rewrite length_app, length_map, length_seq. cbn. lia.
Qed.

Lemma np_linspace_nth (start stop : R) (k i : nat) :
  (i <= S k)%nat ->
  nth i (np_linspace start stop (S (S k))) 0 = start + INR i * (stop - start) / INR (S k).
Proof.
  intros Hi. cbn [np_linspace]. cbv zeta.
  assert (Hk : INR (S k) <> 0) by (apply not_0_INR; lia).
  destruct (Nat.eq_dec i (S k)) as [-> | Hne].
  - rewrite app_nth2 by (rewrite length_map, length_seq; lia).
    rewrite length_map, length_seq, Nat.sub_diag. cbn [nth]. field. exact Hk.
  - rewrite app_nth1 by (rewrite length_map, length_seq; lia).
    rewrite (nth_map_seq (fun i => INR i * ((stop - start) / INR (S k)) + start)) by lia.
    field. exact Hk.
Qed.

(** X22.  [generate_contour_levels] returns [num_levels] levels; the first is
    [z_min] and, from two levels on, the last is [z_max] and the levels are
    evenly spaced; with [z_min <= z_max] every level lies between the two.
    The function and the two ranges it is given play no part. *)
Theorem generate_contour_levels_spec (func : R -> R -> R) (x_range y_range : R * R)
    (num_levels : nat) (z_min z_max : R) :
  let levels := Geometry.generate_contour_levels func x_range y_range num_levels z_min z_max in
  length levels = num_levels /\
  ((1 <= num_levels)%nat -> nth 0 levels 0 = z_min) /\
  ((2 <= num_levels)%nat ->
   nth (num_levels - 1) levels 0 = z_max /\
   forall i, (i < num_levels)%nat ->
     nth i levels 0 = z_min + INR i * (z_max - z_min) / INR (num_levels - 1)) /\
  (z_min <= z_max -> forall i, (i < num_levels)%nat -> z_min <= nth i levels 0 <= z_max) /\
  (forall func' x_range' y_range',
     Geometry.generate_contour_levels func' x_range' y_range' num_levels z_min z_max = levels).
Proof.
  unfold Geometry.generate_contour_levels. cbv zeta.
  split; [apply np_linspace_length |].
  assert (Hnth : forall k i, (i <= S k)%nat ->
            nth i (np_linspace z_min z_max (S (S k))) 0
            = z_min + INR i * (z_max - z_min) / INR (S k))
    by (intros k i; apply np_linspace_nth).
  split; [| split; [| split]].
  - intros H1. destruct num_levels as [| [| k]]; [lia | reflexivity |].
    rewrite Hnth by lia. cbn [INR]. unfold Rdiv. ring.
  - intros H2. destruct num_levels as [| [| k]]; [lia | lia |].
    replace (S (S k) - 1)%nat with (S k) by lia.
    assert (Hk : INR (S k) <> 0) by (apply not_0_INR; lia).
    split.
    + rewrite Hnth by lia. field. exact Hk.
    + intros i Hi. apply Hnth. lia.
  - intros Hle i Hi. destruct num_levels as [| [| k]]; [lia | |].
    + replace i with 0%nat by lia. cbn. lra.
    + rewrite Hnth by lia.
      assert (Hk : 0 < INR (S k)) by (apply lt_0_INR; lia).
      assert (H0 : 0 <= INR i) by apply pos_INR.
      assert (H1 : INR i <= INR (S k)) by (apply le_INR; lia).
      assert (Hq : 0 <= INR i / INR (S k) <= 1).
      { split.
        - apply Rmult_le_pos; [exact H0 | left; apply Rinv_0_lt_compat; exact Hk].
        - apply Rmult_le_reg_r with (INR (S k)); [exact Hk |].
          unfold Rdiv. rewrite Rmult_assoc, Rinv_l by lra. lra. }
      replace (z_min + INR i * (z_max - z_min) / INR (S k))
        with (z_min + (INR i / INR (S k)) * (z_max - z_min)) by (field; lra).
      destruct Hq as [Q0 Q1].
      assert (0 <= INR i / INR (S k) * (z_max - z_min)) by (apply Rmult_le_pos; lra).
      assert (INR i / INR (S k) * (z_max - z_min) <= 1 * (z_max - z_min))
        by (apply Rmult_le_compat_r; lra).
      lra.
  - reflexivity.
Qed.

Lemma generate_contour_levels_spec_witness :
  nth 7 (Geometry.generate_contour_levels (fun _ _ => 0) (-4, 4) (-3, 3) 8 0.1 0.8) 0 = 0.8.
Proof.
  assert (H : (2 <= 8)%nat) by lia.
  exact (proj1 (proj1 (proj2 (proj2
    (generate_contour_levels_spec (fun _ _ => 0) (-4, 4) (-3, 3) 8 0.1 0.8))) H)).
Defined.

(** * The share of every mode *)

Lemma np_sum_div (v : vector) (c : R) :
  np_sum (map (fun x => x / c) v) = np_sum v / c.
Proof.
  induction v as [| x v IH].
  - unfold np_sum, Rdiv. cbn. ring.
  - cbn [map]. rewrite !np_sum_cons, IH. unfold Rdiv. ring.
Qed.

Lemma nth_map_div (c : R) (v : vector) (i : nat) :
  nth i (map (fun x => x / c) v) 0 = nth i v 0 / c.
Proof.
  revert i. induction v as [| x v IH]; intros [| i]; cbn;
    try (unfold Rdiv; ring); try reflexivity.
  apply IH.
Qed.

Lemma np_sum_nonneg (v : vector) : Forall (Rle 0) v -> 0 <= np_sum v.
Proof.
  induction 1 as [| x v Hx Hv IH].
  - unfold np_sum. cbn. lra.
  - rewrite np_sum_cons. lra.
Qed.

Lemma np_sum_bounds_entry (v : vector) :
  Forall (Rle 0) v -> Forall (fun x => x <= np_sum v) v.
Proof.
  induction 1 as [| x v Hx Hv IH].
  - constructor.
  - pose proof (np_sum_nonneg v Hv) as Hs.
    constructor.
    + rewrite np_sum_cons. lra.
    + revert IH. apply Forall_impl. intros y Hy. rewrite np_sum_cons. lra.
Qed.

Lemma Sorted_Rge_map_div (v : vector) (c : R) :
  0 < c -> Sorted Rge v -> Sorted Rge (map (fun x => x / c) v).
Proof.
  intros Hc. induction 1 as [| x v Hs IH Hh]; cbn.
  - constructor.
  - constructor; [exact IH |].
    destruct Hh as [| y v Hxy]; cbn; constructor.
    apply Rle_ge. apply Rmult_le_compat_r; [left; apply Rinv_0_lt_compat; exact Hc | lra].
Qed.

(** X23.  When the eigenvalues do not add up to zero [energy_ratios] returns
    as many shares as there are eigenvalues, each the eigenvalue over the
    total, and the shares add up to 1; eigenvalues that are not negative
    give shares in [[0, 1]], and with a positive total descending
    eigenvalues give descending shares.  Eigenvalues that add up to zero are
    divided by zero. *)
Theorem energy_ratios_spec (eigvals : vector) :
  (np_sum eigvals <> 0 ->
   exists ratios,
     Pod3D.energy_ratios eigvals = Ok ratios /\
     length ratios = length eigvals /\
     (forall i, nth i ratios 0 = nth i eigvals 0 / np_sum eigvals) /\
     np_sum ratios = 1 /\
     (Forall (Rle 0) eigvals -> Forall (fun r => 0 <= r <= 1) ratios) /\
     (0 < np_sum eigvals -> descending eigvals -> descending ratios)) /\
  (np_sum eigvals = 0 -> eigvals <> [] ->
   Pod3D.energy_ratios eigvals = Raise ZeroDivision).
Proof.
  unfold Pod3D.energy_ratios. cbv zeta. split.
  - intros Ht. rewrite vec_div_ok by exact Ht.
    eexists. split; [reflexivity |].
    split; [apply length_map |].
    split; [intros i; apply nth_map_div |].
    split; [rewrite np_sum_div; field; exact Ht |].
    split.
    + intros Hpos.
      pose proof (np_sum_nonneg eigvals Hpos) as Hs.
      assert (Hc : 0 < np_sum eigvals) by lra.
      pose proof (np_sum_bounds_entry eigvals Hpos) as Hb.
      apply Forall_map. rewrite Forall_forall in *. intros x Hx.
      specialize (Hpos x Hx). specialize (Hb x Hx). cbn beta in Hb. split.
      * apply Rmult_le_pos; [exact Hpos | left; apply Rinv_0_lt_compat; exact Hc].
      * apply Rmult_le_reg_r with (np_sum eigvals); [exact Hc |].
        unfold Rdiv. rewrite Rmult_assoc, Rinv_l by lra. lra.
    + intros Hc Hd. apply Sorted_Rge_map_div; assumption.
  - intros Ht Hne. destruct eigvals as [| x v]; [contradiction |].
    rewrite Ht. apply vec_div_zero.
Qed.

Lemma energy_ratios_spec_witness :
  exists ratios, Pod3D.energy_ratios [3; 2; 1] = Ok ratios /\ np_sum ratios = 1.
Proof.
  assert (H : np_sum [3; 2; 1] <> 0) by (unfold np_sum; cbn; lra).
  destruct (proj1 (energy_ratios_spec [3; 2; 1]) H) as (r & E & _ & _ & S & _).
  exists r. split; [exact E | exact S].
Defined.

Lemma np_sum_perm (u v : vector) : Permutation u v -> np_sum u = np_sum v.
Proof.
  induction 1 as [| x u v Hp IH | x y u | u v w H1 IH1 H2 IH2].
  - reflexivity.
  - rewrite !np_sum_cons, IH. reflexivity.
  - rewrite !np_sum_cons. ring.
  - congruence.
Qed.

(** X24.  After the reordering of [scene5_3d_extension] the shares of the
    modes come in descending order, the first mode having the largest: when
    the eigenvalues returned by [eigh] have a positive sum, the shares of the
    reordered eigenvalues exist, add up to 1 and are descending. *)
Theorem pod_modes_energy_ratios (eigh : matrix -> vector * matrix) (cov : matrix) :
  0 < np_sum (fst (eigh cov)) ->
  exists ratios,
    Pod3D.energy_ratios (fst (Pod3D.pod_modes eigh cov)) = Ok ratios /\
    np_sum ratios = 1 /\
    descending ratios /\
    forall i j, (i <= j < length ratios)%nat -> nth j ratios 0 <= nth i ratios 0.
Proof.
  unfold Pod3D.pod_modes. destruct (eigh cov) as [eigvals eigvecs]. cbn [fst].
  intros Hpos.
  destruct (reorder_descending eigvals) as [Hs Hp].
  set (sorted := take eigvals (rev (argsort eigvals))) in *.
  assert (Hsum : np_sum sorted = np_sum eigvals) by (apply np_sum_perm; exact Hp).
  unfold Pod3D.energy_ratios. cbv zeta. rewrite Hsum.
  rewrite vec_div_ok by lra.
  eexists. split; [reflexivity |].
  split; [rewrite np_sum_div, Hsum; field; lra |].
  assert (Hd : Sorted Rge (map (fun x => x / np_sum eigvals) sorted)).
  { apply Sorted_Rge_map_div; [exact Hpos | apply StronglySorted_Sorted; exact Hs]. }
  split; [exact Hd |].
  apply StronglySorted_nth.
  apply Sorted_StronglySorted; [| exact Hd].
  intros x y z Hxy Hyz. lra.
Qed.

Lemma pod_modes_energy_ratios_witness :
  exists ratios,
    Pod3D.energy_ratios
      (fst (Pod3D.pod_modes (fun _ => ([1; 3; 2], [[1; 0; 0]; [0; 1; 0]; [0; 0; 1]])) []))
    = Ok ratios /\ np_sum ratios = 1.
Proof.
  assert (H : 0 < np_sum (fst ([1; 3; 2], [[1; 0; 0]; [0; 1; 0]; [0; 0; 1]])))
    by (unfold np_sum; cbn; lra).
  destruct (pod_modes_energy_ratios
              (fun _ => ([1; 3; 2], [[1; 0; 0]; [0; 1; 0]; [0; 0; 1]])) [] H)
    as (r & E & S & _).
  exists r. split; [exact E | exact S].
Defined.

(** * The review scene *)

(** X25.  With at least one sample [_create_point_cloud] returns an N x 2
    array with one point for every sample, on which the energy meter meets
    no error; when every number drawn by [rng.random()] is in [[0, 1)], every
    point lies on a copy of the ellipse scaled by a factor between 0.35 and
    0.95, hence inside the ellipse.  With no sample it returns the
    one-dimensional array without entries, and building the energy meter on
    it ends in [AxisError]. *)
Theorem create_point_cloud_spec (width height : R) (draws : list (R * R)) :
  (draws <> [] ->
   exists samples,
     Scene01.create_point_cloud width height draws = Array2 2 samples /\
     n_by_2 samples /\
     length samples = length draws /\
     (forall angle, exists ratio,
        BaseScenes.build_energy_meter (Array2 2 samples) angle = Ok ratio /\
        0 <= ratio <= 1) /\
     (Forall (fun d => 0 <= snd d < 1) draws ->
      Forall (fun p =>
                exists radius,
                  0.35 <= radius < 0.95 /\
                  (height * nth 0 p 0) ^ 2 + (width * nth 1 p 0) ^ 2
                  = (0.5 * width * height * radius) ^ 2)
             samples)) /\
  (draws = [] ->
   Scene01.create_point_cloud width height draws = Array1 [] /\
   forall angle,
     BaseScenes.build_energy_meter (Scene01.create_point_cloud width height draws) angle
     = Raise AxisError).
Proof.
  split.
  - intros Hne.
    set (coords := map (fun '(theta, u) =>
                [0.5 * width * (0.35 + 0.6 * u) * cos theta;
                 0.5 * height * (0.35 + 0.6 * u) * sin theta]) draws).
    assert (N : n_by_2 coords).
    { apply Forall_map. apply Forall_forall. intros [theta u] _. reflexivity. }
    exists coords. split.
    + unfold Scene01.create_point_cloud. cbv zeta. fold coords.
      destruct draws as [| [theta u] draws]; [contradiction | reflexivity].
    + split; [exact N |]. split; [apply length_map |]. split.
      * intros angle. eexists.
        split; [apply build_energy_meter_n_by_2; exact N | apply clip_range].
      * intros Hd. apply Forall_map. revert Hd. apply Forall_impl.
        intros [theta u] Hu. cbn [snd] in Hu. exists (0.35 + 0.6 * u).
        split; [split; unlit; lra |]. cbn [nth].
        pose proof (cos_sin_unit theta) as U.
        transitivity ((0.5 * width * height * (0.35 + 0.6 * u)) ^ 2
                      * (cos theta * cos theta + sin theta * sin theta));
          [ring | rewrite U; ring].
  - intros ->. split; [reflexivity |]. intros angle. reflexivity.
Qed.

Lemma create_point_cloud_spec_witness :
  (exists samples,
     Scene01.create_point_cloud 8.0 4.2 [(0, 0); (PI, 0.5)] = Array2 2 samples /\
     n_by_2 samples) /\
  BaseScenes.build_energy_meter (Scene01.create_point_cloud 8.0 4.2 []) 0 = Raise AxisError.
Proof.
  split.
  - assert (H : [(0, 0); (PI, 0.5)] <> @nil (R * R)) by discriminate.
    destruct (proj1 (create_point_cloud_spec 8.0 4.2 [(0, 0); (PI, 0.5)]) H)
      as (samples & E & N & _).
    exists samples. split; [exact E | exact N].
  - exact (proj2 (proj2 (create_point_cloud_spec 8.0 4.2 []) eq_refl) 0).
Defined.

Lemma vec3_norm_np_norm (x y z : R) : vec3_norm (x, y, z) = np_norm [x; y; z].
Proof. reflexivity. Qed.

(** X26.  The direction given to the label of the arrow is always a unit
    vector, found without a division by zero: for an arrow longer than 0.01
    it is the vector from the start of the arrow to its end divided by its
    norm, otherwise it is the direction [RIGHT]. *)
Theorem label_direction_unit (arrow_start arrow_end : vec3) :
  exists x y z d,
    vec3_sub arrow_end arrow_start = (x, y, z) /\
    Scene01.label_direction arrow_start arrow_end = Ok d /\
    vec3_norm d = 1 /\
    (0.01 < vec3_norm (x, y, z) ->
     d = (x / vec3_norm (x, y, z), y / vec3_norm (x, y, z), z / vec3_norm (x, y, z))) /\
    (vec3_norm (x, y, z) <= 0.01 -> d = (1, 0, 0)).
Proof.
  unfold Scene01.label_direction. cbv zeta.
  destruct (vec3_sub arrow_end arrow_start) as [[x y] z].
  exists x, y, z.
  destruct (Rlt_dec 0.01 (vec3_norm (x, y, z))) as [Hlt | Hge].
  - assert (Hn : vec3_norm (x, y, z) <> 0) by lra.
    unfold vec3_div. rewrite !div_ok by exact Hn. cbn [bind].
    eexists. split; [reflexivity |]. split; [reflexivity |].
    split; [| split; [intros _; reflexivity | lra]].
    rewrite vec3_norm_np_norm in *.
    apply (np_norm_normalized [x; y; z]). lra.
  - exists (1, 0, 0). split; [reflexivity |]. split; [reflexivity |].
    split; [| split; [intros Hlt; contradiction | intros _; reflexivity]].
    unfold vec3_norm, np_sum. cbn. apply sqrt_lem_1; lra.
Qed.

Lemma label_direction_unit_witness :
  Scene01.label_direction (1, 1, 1) (4, 5, 1) = Ok (3 / 5, 4 / 5, 0 / 5) /\
  Scene01.label_direction (1, 2, 3) (1, 2, 3) = Ok (1, 0, 0).
Proof.
  split.
  - assert (N : vec3_norm (3, 4, 0) = 5).
    { unfold vec3_norm, np_sum. cbn. apply sqrt_lem_1; lra. }
    destruct (label_direction_unit (1, 1, 1) (4, 5, 1)) as (x & y & z & d & S & E & _ & L & _).
    assert (S' : vec3_sub (4, 5, 1) (1, 1, 1) = (3, 4, 0))
      by (unfold vec3_sub; apply vec3_ext; ring).
    rewrite S' in S. injection S as <- <- <-.
    rewrite E. f_equal. rewrite N in L. apply L. lra.
  - destruct (label_direction_unit (1, 2, 3) (1, 2, 3)) as (x & y & z & d & S & E & _ & _ & F).
    assert (S' : vec3_sub (1, 2, 3) (1, 2, 3) = (0, 0, 0))
      by (unfold vec3_sub; apply vec3_ext; ring).
    rewrite S' in S. injection S as <- <- <-.
    rewrite E. f_equal. apply F.
    unfold vec3_norm, np_sum. cbn.
    replace (0 + 0 * (0 * 1) + 0 * (0 * 1) + 0 * (0 * 1)) with 0 by ring.
    rewrite sqrt_0. lra.
Defined.

(** X27.  For an N x 2 point set and an outline at least 0.12 wide, the
    progress bar is never narrower than 0.02 and never wider than the larger
    of 0.02 and the outline less 0.12; the number shown beside it lies
    between 0 and 100. *)
Theorem progress_bar_width_bounds (samples : matrix) (angle outline_width : R) :
  n_by_2 samples ->
  0.12 <= outline_width ->
  exists width percent,
    BaseScenes.progress_bar_width samples angle outline_width = Ok width /\
    0.02 <= width <= Rmax 0.02 (outline_width - 0.12) /\
    BaseScenes.percent_value samples angle = Ok percent /\
    0 <= percent <= 100.
Proof.
  intros H Hw. unfold BaseScenes.progress_bar_width, BaseScenes.percent_value.
  rewrite energy_ratio_ok by exact H. cbn [bind].
  pose proof (clip_range (projected_energy samples angle / (sum_sq_norms samples + 1e-6)))
    as [H0 H1].
  set (r := clip _ _ _) in *.
  eexists. eexists. split; [reflexivity |]. split; [| split; [reflexivity | lra]].
  split; [apply Rmax_l |].
  apply Rmax_lub; [apply Rmax_l |].
  apply Rle_trans with (outline_width - 0.12); [| apply Rmax_r].
  assert (r * (outline_width - 0.12) <= 1 * (outline_width - 0.12))
    by (apply Rmult_le_compat_r; lra).
  lra.
Qed.

Lemma progress_bar_width_bounds_witness :
  exists width,
    BaseScenes.progress_bar_width [[1; 0]; [0; 2]] 0 3.6 = Ok width /\
    0.02 <= width <= Rmax 0.02 (3.6 - 0.12).
Proof.
  assert (H : n_by_2 [[1; 0]; [0; 2]]) by (repeat constructor).
  assert (Hw : 0.12 <= 3.6) by lra.
  destruct (progress_bar_width_bounds [[1; 0]; [0; 2]] 0 3.6 H Hw) as (w & _ & E & B & _).
  exists w. split; [exact E | exact B].
Defined.

(** * The rendering script *)

Section RenderSplitFacts.
Import RenderSplit.
Local Open Scope string_scope.

Lemma first_python_app (find : string -> option string) (l1 l2 : list dir_entry) :
  first_python find (l1 ++ l2)%list =
  match first_python find l1 with
  | Some py => Some py
  | None => first_python find l2
  end.
Proof.
  induction l1 as [| e l1 IH]; cbn; [reflexivity |].
  destruct (find (entry_path e)) as [py |]; [| exact IH].
  destruct (truthy py); [reflexivity | exact IH].
Qed.

(** An environment in which [_find_python_in_env] finds an interpreter. *)
Lemma first_python_find (find : string -> option string) (l : list dir_entry)
    (e : dir_entry) (py : string) :
  List.find (fun p => match find (entry_path p) with
                      | Some x => truthy x
                      | None => false
                      end) l = Some e ->
  find (entry_path e) = Some py ->
  first_python find l = Some py.
Proof.
  induction l as [| a l IH]; cbn; [discriminate |].
  destruct (find (entry_path a)) as [x |] eqn:Ea.
  - destruct (truthy x) eqn:Tx.
    + intros E Hpy. injection E as <-. congruence.
    + exact IH.
  - exact IH.
Qed.

Lemma resolve_shape (h : host) (cmd : list string) :
  _resolve_manim_command h = Some cmd ->
  (exists e, cmd = [e]) \/ (exists py, cmd = [py; "-m"; "manim"]).
Proof.
  unfold _resolve_manim_command. cbv zeta.
  destruct (environ_manim_executable h) as [m |];
    [destruct (truthy m); [destruct (is_file h (expanduser h m)) |] |];
    try (intros E; injection E as <-; left; eexists; reflexivity);
    (destruct (first_python (_find_python_in_env h) (possible_envs h)) as [py |];
     [intros E; injection E as <-; right; eexists; reflexivity |];
     destruct (which_manim h) as [w |];
     [destruct (truthy w); [intros E; injection E as <-; left; eexists; reflexivity |] |];
     (destruct (find_spec_manim h);
      [intros E; injection E as <-; right; eexists; reflexivity | discriminate])).
Qed.

Lemma manual_override_fails (h : host) :
  (forall m,
     environ_manim_executable h = Some m -> truthy m = true ->
     is_file h (expanduser h m) = false) ->
  match environ_manim_executable h with
  | Some manual_exec =>
      if truthy manual_exec
      then if is_file h (expanduser h manual_exec)
           then Some [expanduser h manual_exec] else None
      else None
  | None => None
  end = None.
Proof.
  intros H. destruct (environ_manim_executable h) as [m |]; [| reflexivity].
  destruct (truthy m) eqn:T; [| reflexivity].
  rewrite (H m eq_refl T). reflexivity.
Qed.

(** X28.  [_resolve_manim_command] keeps its order of preference.  A path in
    [MANIM_EXECUTABLE] that is a file is the command, whatever else the
    machine offers.  Otherwise (the variable unset, empty, or naming no
    file), in the first directory of environments an environment whose name
    contains "manim" and whose interpreter passes the probe is taken before
    any other, wherever the directory lists it.  The command found is one
    program, or an interpreter followed by [-m manim]; it is never empty.
    The error is raised exactly when the variable, the environments, the
    search path and the current interpreter all fail. *)
Theorem resolve_manim_command_priority (h : host) :
  (forall m,
     environ_manim_executable h = Some m -> truthy m = true ->
     is_file h (expanduser h m) = true ->
     _resolve_manim_command h = Some [expanduser h m]) /\
  (forall entries rest e py,
     (forall m,
        environ_manim_executable h = Some m -> truthy m = true ->
        is_file h (expanduser h m) = false) ->
     envs_dirs h = Some entries :: rest ->
     List.find (fun p => match _find_python_in_env h (entry_path p) with
                         | Some x => truthy x
                         | None => false
                         end)
               (filter (fun p => entry_is_dir p && contains "manim" (lower (entry_name p)))
                       entries) = Some e ->
     _find_python_in_env h (entry_path e) = Some py ->
     _resolve_manim_command h = Some [py; "-m"; "manim"]) /\
  (forall cmd,
     _resolve_manim_command h = Some cmd ->
     (exists e, cmd = [e]) \/ (exists py, cmd = [py; "-m"; "manim"])) /\
  (_resolve_manim_command h = None <->
   (forall m,
      environ_manim_executable h = Some m -> truthy m = true ->
      is_file h (expanduser h m) = false) /\
   first_python (_find_python_in_env h) (possible_envs h) = None /\
   (which_manim h = None \/ which_manim h = Some "") /\
   find_spec_manim h = false).
Proof.
  split; [| split; [| split]].
  - intros m Em Tm Fm. unfold _resolve_manim_command. cbv zeta.
    rewrite Em, Tm, Fm. reflexivity.
  - intros entries rest e py Hm Ed Hfind Hpy.
    unfold _resolve_manim_command. cbv zeta.
    rewrite (manual_override_fails h Hm).
    unfold possible_envs. rewrite Ed. cbn [flat_map]. cbv zeta.
    rewrite !first_python_app.
    rewrite (first_python_find _ _ e py Hfind Hpy). reflexivity.
  - apply resolve_shape.
  - split.
    + unfold _resolve_manim_command. cbv zeta.
      destruct (environ_manim_executable h) as [m |];
        [destruct (truthy m) eqn:Tm; [destruct (is_file h (expanduser h m)) eqn:Fm |] |];
        try discriminate;
        (destruct (first_python (_find_python_in_env h) (possible_envs h)) as [py |];
         [discriminate |];
         destruct (which_manim h) as [w |];
         [destruct (truthy w) eqn:Tw; [discriminate |] |];
         (destruct (find_spec_manim h); [discriminate |]);
         intros _;
         (split; [intros m' Em' Tm'; try discriminate Em';
                  injection Em' as <-; congruence |]);
         repeat split; try (left; reflexivity)).
      all: right; f_equal; unfold truthy in Tw; apply negb_false_iff in Tw;
        apply String.eqb_eq in Tw; exact Tw.
    + intros (Hm & Hp & Hw & Hs).
      unfold _resolve_manim_command. cbv zeta.
      rewrite (manual_override_fails h Hm), Hp, Hs.
      destruct Hw as [-> | ->]; reflexivity.
Qed.

Lemma resolve_manim_command_priority_witness :
  _resolve_manim_command
    {| environ_manim_executable := Some "/old/manim";
       expanduser := fun p => p;
       is_file := fun _ => false;
       envs_dirs := [Some [ {| entry_path := "/c/envs/base2"; entry_name := "base2";
                               entry_is_dir := true |};
                            {| entry_path := "/c/envs/Manim_env"; entry_name := "Manim_env";
                               entry_is_dir := true |} ];
                     None];
       _find_python_in_env := fun p => Some (String.append p "/bin/python3");
       which_manim := Some "/usr/bin/manim";
       find_spec_manim := true;
       sys_executable := "python3";
       run := fun _ => 0%Z |} = Some ["/c/envs/Manim_env/bin/python3"; "-m"; "manim"].
Proof.
  eapply (proj1 (proj2 (resolve_manim_command_priority _))).
  - intros m _ _. reflexivity.
  - reflexivity.
  - reflexivity.
  - reflexivity.
Defined.

(** A path in the variable that is a file wins over everything else. *)
Example resolve_manual_override :
  _resolve_manim_command
    {| environ_manim_executable := Some "/opt/manim";
       expanduser := fun p => p;
       is_file := fun _ => true;
       envs_dirs := [];
       _find_python_in_env := fun _ => None;
       which_manim := Some "/usr/bin/manim";
       find_spec_manim := true;
       sys_executable := "python3";
       run := fun _ => 0%Z |} = Some ["/opt/manim"].
Proof. reflexivity. Qed.

(** Two environments listed with the other one first: the one named after
    manim is taken. *)
Example resolve_prefers_manim_env :
  _resolve_manim_command
    {| environ_manim_executable := None;
       expanduser := fun p => p;
       is_file := fun _ => false;
       envs_dirs := [Some [ {| entry_path := "/c/envs/base2"; entry_name := "base2";
                               entry_is_dir := true |};
                            {| entry_path := "/c/envs/Manim_env"; entry_name := "Manim_env";
                               entry_is_dir := true |} ];
                     None];
       _find_python_in_env := fun p => Some (String.append p "/bin/python3");
       which_manim := None;
       find_spec_manim := false;
       sys_executable := "python3";
       run := fun _ => 0%Z |} = Some ["/c/envs/Manim_env/bin/python3"; "-m"; "manim"].
Proof. reflexivity. Qed.

End RenderSplitFacts.

Section RenderAnimationFacts.
Import RenderSplit.
Local Open Scope string_scope.

Lemma quality_flag_fallback (quality : string) :
  member quality ["low"; "medium"; "high"] = false ->
  dict_get quality_settings quality "-qm" = dict_get quality_settings "medium" "-qm".
Proof.
  unfold member, quality_settings. cbn [existsb dict_get].
  rewrite !orb_false_iff. intros (Hl & Hm & Hh & _).
  rewrite (String.eqb_sym "low" quality), Hl.
  rewrite (String.eqb_sym "medium" quality), Hm.
  rewrite (String.eqb_sym "high" quality), Hh.
  reflexivity.
Qed.

Lemma quality_flag_values (quality : string) :
  member (dict_get quality_settings quality "-qm") ["-ql"; "-qm"; "-qh"] = true.
Proof.
  unfold quality_settings. cbn [dict_get].
  destruct (String.eqb "low" quality); [reflexivity |].
  destruct (String.eqb "medium" quality); [reflexivity |].
  destruct (String.eqb "high" quality); reflexivity.
Qed.

(** X29.  [render_animation] runs the 2D part before the 3D part and never
    runs the 3D part after the 2D part has failed; it reports success
    exactly when every command it ran ended with the code 0; a part other
    than "2d", "3d" and "both" runs nothing and is reported as a success,
    manim being there or not; a quality other than "low", "medium" and
    "high" is rendered as "medium"; when manim cannot be found, a known part
    ends in the error before anything is run. *)
Theorem render_animation_sequence (h : host) (quality : string) (preview : bool) :
  (forall cmd_2d cmd_3d,
     _build_manim_args h "pod_educational_2d.py" "PODEducational2D"
       (dict_get quality_settings quality "-qm")
       (if preview then Some "-ps" else None) = Some cmd_2d ->
     _build_manim_args h "pod_educational_3d.py" "PODEducational3D"
       (dict_get quality_settings quality "-qm")
       (if preview then Some "-ps" else None) = Some cmd_3d ->
     render_animation h "both" quality preview =
       if (run h cmd_2d =? 0)%Z
       then Some ((run h cmd_3d =? 0)%Z, [cmd_2d; cmd_3d])
       else Some (false, [cmd_2d])) /\
  (forall part ok ran,
     render_animation h part quality preview = Some (ok, ran) ->
     (ok = true <-> Forall (fun cmd => run h cmd = 0%Z) ran)) /\
  (forall part,
     member part ["2d"; "3d"; "both"] = false ->
     render_animation h part quality preview = Some (true, [])) /\
  (member quality ["low"; "medium"; "high"] = false ->
   forall part,
     render_animation h part quality preview = render_animation h part "medium" preview) /\
  (_resolve_manim_command h = None ->
   forall part,
     member part ["2d"; "3d"; "both"] = true ->
     render_animation h part quality preview = None).
Proof.
  split; [| split; [| split; [| split]]].
  - intros cmd_2d cmd_3d B2 B3. unfold render_animation. cbv zeta.
    change (member "both" ["2d"; "both"]) with true.
    change (member "both" ["3d"; "both"]) with true.
    cbv iota. unfold string in *. rewrite B2.
    destruct (run h cmd_2d =? 0)%Z; cbn [negb andb]; [| reflexivity].
    rewrite B3. destruct (run h cmd_3d =? 0)%Z; reflexivity.
  - intros part ok ran. unfold render_animation. cbv zeta.
    destruct (member part ["2d"; "both"]);
      destruct (member part ["3d"; "both"]); cbn [andb];
      repeat match goal with
             | |- context [_build_manim_args ?a ?b ?c ?d ?e] =>
                 destruct (_build_manim_args a b c d e) as [?cmd |]; [| discriminate]
             | |- context [(run h ?c =? 0)%Z] =>
                 let E := fresh "E" in destruct (Z.eqb_spec (run h c) 0) as [E | E]
             | _ => progress cbn [negb andb app]
             end;
      intros Heq; injection Heq as <- <-;
      split; intros Hok; try discriminate; try reflexivity;
      repeat constructor; try assumption;
      repeat match goal with
             | H : Forall _ (_ :: _) |- _ => inversion H; subst; clear H
             end;
      try contradiction.
  - intros part Hp. unfold render_animation. cbv zeta.
    unfold member in *. cbn [existsb] in *.
    rewrite !orb_false_iff in Hp. destruct Hp as (H2 & H3 & Hb & _).
    rewrite H2, H3, Hb. reflexivity.
  - intros Hq part. unfold render_animation. cbv zeta.
    rewrite (quality_flag_fallback quality Hq). reflexivity.
  - intros Hr part Hp. unfold render_animation, _build_manim_args. cbv zeta.
    rewrite Hr.
    destruct (member part ["2d"; "both"]) eqn:E2; [reflexivity |].
    destruct (member part ["3d"; "both"]) eqn:E3; [reflexivity |].
    exfalso. unfold member in *. cbn [existsb] in *.
    rewrite !orb_false_iff in E2, E3. destruct E2 as (A & B & _), E3 as (C & _).
    rewrite A, B, C in Hp. discriminate.
Qed.

Lemma render_animation_sequence_witness :
  render_animation
    {| environ_manim_executable := None;
       expanduser := fun p => p;
       is_file := fun _ => false;
       envs_dirs := [];
       _find_python_in_env := fun _ => None;
       which_manim := Some "manim";
       find_spec_manim := false;
       sys_executable := "python3";
       run := fun _ => 1%Z |} "everything" "low" false = Some (true, []).
Proof.
  refine (proj1 (proj2 (proj2 (render_animation_sequence _ "low" false))) "everything" _).
  reflexivity.
Defined.

(** A rendering whose every command ends with the code 1: the 2D command is
    the only one run. *)
Example render_animation_2d_fails :
  render_animation
    {| environ_manim_executable := None;
       expanduser := fun p => p;
       is_file := fun _ => false;
       envs_dirs := [];
       _find_python_in_env := fun _ => None;
       which_manim := Some "manim";
       find_spec_manim := false;
       sys_executable := "python3";
       run := fun _ => 1%Z |} "both" "high" true =
  Some (false, [["manim"; "pod_educational_2d.py"; "PODEducational2D"; "-qh"; "-ps"]]).
Proof. reflexivity. Qed.

Lemma part_not_quality (x : string) :
  member x ["2d"; "3d"; "both"] = true ->
  member x ["low"; "medium"; "high"; "preview"] = false.
Proof.
  unfold member. cbn [existsb]. rewrite !orb_true_iff.
  intros [H | [H | [H | H]]]; try discriminate H;
    apply String.eqb_eq in H; subst x; reflexivity.
Qed.

(** X30.  Whatever the arguments, the script either shows its help or calls
    [render_animation] with a part among "2d", "3d", "both" and a quality
    among "low", "medium", "high", so none of the fallbacks of
    [render_animation] is met from the command line; the help is shown
    exactly when "--help" or "-h" is among the arguments.  The part is read
    from the first argument only: when the first argument is a quality or
    "preview", both parts are rendered, whatever follows. *)
Theorem main_arguments (argv : list string) :
  match main argv with
  | Help => member "--help" argv || member "-h" argv = true
  | Render part quality preview =>
      member "--help" argv || member "-h" argv = false /\
      member part ["2d"; "3d"; "both"] = true /\
      member quality ["low"; "medium"; "high"] = true /\
      (forall a,
         nth_error argv 1 = Some a ->
         member (lower a) ["low"; "medium"; "high"; "preview"] = true ->
         part = "both")
  end.
Proof.
  unfold main. cbv zeta.
  destruct (nth_error argv 1) as [a1 |];
    [destruct (member (lower a1) ["2d"; "3d"; "both"]) eqn:P1;
     [| destruct (member (lower a1) ["low"; "medium"; "high"]) eqn:Q1;
        [| destruct (String.eqb (lower a1) "preview")]] |];
    (destruct (nth_error argv 2) as [a2 |];
     [destruct (member (lower a2) ["low"; "medium"; "high"]) eqn:Q2;
      [| destruct (String.eqb (lower a2) "preview")] |]);
    (destruct (nth_error argv 3) as [a3 |];
     [destruct (String.eqb (lower a3) "preview") |]);
    cbv beta iota;
    (destruct (member "--help" argv || member "-h" argv); [reflexivity |]);
    (split; [reflexivity |];
     split; [first [exact P1 | reflexivity] |];
     split; [first [exact Q2 | exact Q1 | reflexivity] |]);
    intros a Ea Ha; try reflexivity;
    injection Ea as <-; rewrite (part_not_quality _ P1) in Ha; discriminate Ha.
Qed.

Lemma main_arguments_witness :
  match main ["render_pod_split.py"; "LOW"; "2d"] with
  | Help => False
  | Render part _ _ => part = "both"
  end.
Proof.
  pose proof (main_arguments ["render_pod_split.py"; "LOW"; "2d"]) as H.
  destruct (main ["render_pod_split.py"; "LOW"; "2d"]) as [| part quality preview].
  - discriminate H.
  - destruct H as (_ & _ & _ & H). apply (H "LOW"); reflexivity.
Defined.

(** A quality given before the part: the part is not read. *)
Example main_quality_first :
  main ["render_pod_split.py"; "LOW"; "2d"; "Preview"] = Render "both" "low" true.
Proof. reflexivity. Qed.

Example main_part_first :
  main ["render_pod_split.py"; "3D"; "high"] = Render "3d" "high" false.
Proof. reflexivity. Qed.

End RenderAnimationFacts.
